(** * The template interpreter of BehavioralPattern/Interpreter/Interpreter.go

    A shallow embedding of [ParseTemplate] and of the three [Interpreter]
    methods ([TextNode], [VarNode], [Template]), together with the parts of
    Go's [strings] and [fmt] packages that they call.

    Go strings are byte sequences: they are modelled as [list ascii] (one
    [ascii] per byte; a Rocq string literal holds the UTF-8 bytes of its
    text, as a Go literal does).  Go's [int] is modelled as [Z]: every sum
    the parser computes lies between [0] and the length of the template
    (lemma [int_bounds]), which fits an [int], so no 64-bit addition wraps.
    A slice expression [s[lo:hi]] panics in Go when its bounds are out of
    range and so does the use of a nil pointer, so the program lives in a
    small result monad with a [Panic] outcome, and the [for] loop is run
    with explicit fuel. *)

From Stdlib Require Import ZArith Lia Ascii String List DecimalString.
From stdpp Require Import base option list gmap strings.

Local Open Scope Z_scope.

(** ** Go strings *)

Abbreviation gostring := (list ascii).

(** A literal, as bytes. *)
Definition str (s : string) : gostring := list_ascii_of_string s.

(** [len(s)] *)
Definition len (s : gostring) : Z := Z.of_nat (length s).

(** ** Results of code that may panic, or that is run with fuel *)

Inductive result (A : Type) : Type :=
  | Ok (a : A)
  | Panic
  | OutOfFuel.
Arguments Ok {A} a.
Arguments Panic {A}.
Arguments OutOfFuel {A}.

Definition bind {A B : Type} (r : result A) (k : A -> result B) : result B :=
  match r with
  | Ok a => k a
  | Panic => Panic
  | OutOfFuel => OutOfFuel
  end.

Notation "'let*' x ':=' r 'in' k" := (bind r (fun x => k))
  (at level 10, x name, r at level 100, k at level 200).

(** ** Pointers

    A Go pointer is either [nil] or the address of an object; nothing in
    this program aliases one, so a pointer is modelled by the object it
    points to.  Dereferencing [nil] panics. *)

Definition ptr (A : Type) : Type := option A.

Definition deref {A : Type} (p : ptr A) : result A :=
  match p with
  | Some a => Ok a
  | None => Panic
  end.

(** The slice expressions [s[lo:hi]] and [s[lo:]]: Go panics unless
    [0 <= lo <= hi <= len(s)]. *)
Definition slice (s : gostring) (lo hi : Z) : result gostring :=
  if (0 <=? lo) && (lo <=? hi) && (hi <=? len s)
  then Ok (take (Z.to_nat (hi - lo)) (drop (Z.to_nat lo) s))
  else Panic.

Definition slice_from (s : gostring) (lo : Z) : result gostring :=
  slice s lo (len s).

(** ** The [strings] package

    Modelled from the documentation of Go's standard library: the functions
    are specified there by what they return, and that is what is defined
    here. *)

Module strings.

(** [strings.HasPrefix(s, prefix)] *)
Fixpoint HasPrefix (s prefix : gostring) {struct prefix} : bool :=
  match prefix, s with
  | [], _ => true
  | _ :: _, [] => false
  | p :: prefix', c :: s' => if Ascii.eqb c p then HasPrefix s' prefix' else false
  end.

(** The offset of the first instance of [substr] in [s], if there is one. *)
Fixpoint find (s substr : gostring) : option nat :=
  if HasPrefix s substr then Some 0%nat
  else match s with
       | [] => None
       | _ :: s' => S <$> find s' substr
       end.

(** [strings.Index(s, substr)]: the index of the first instance of
    [substr] in [s], or [-1] if [substr] is not present in [s]. *)
Definition Index (s substr : gostring) : Z :=
  match find s substr with
  | Some i => Z.of_nat i
  | None => -1
  end.

(** The value of a byte. *)
Definition byte (c : ascii) : Z := Z.of_N (N_of_ascii c).

(** [unicode.IsSpace(r)]: the code points with Unicode's White Space
    property. *)
Definition IsSpace (r : Z) : bool :=
  ((9 <=? r) && (r <=? 13)) || (r =? 32) || (r =? 133) || (r =? 160)
  || (r =? 5760) || ((8192 <=? r) && (r <=? 8202)) || (r =? 8232)
  || (r =? 8233) || (r =? 8239) || (r =? 8287) || (r =? 12288).

(** A UTF-8 continuation byte, [10xxxxxx]. *)
Definition cont (c : ascii) : bool := (128 <=? byte c) && (byte c <=? 191).

(** The code point of a one-byte (ASCII) encoding. *)
Definition rune1 (c1 : ascii) : option Z :=
  if byte c1 <? 128 then Some (byte c1) else None.

(** The code point of a valid two-byte encoding, [110xxxxx 10xxxxxx] with
    a first byte of at least [0xC2]. *)
Definition rune2 (c1 c2 : ascii) : option Z :=
  if (194 <=? byte c1) && (byte c1 <=? 223) && cont c2
  then Some (Z.lor (Z.shiftl (Z.land (byte c1) 31) 6) (Z.land (byte c2) 63))
  else None.

(** The code point of a valid three-byte encoding,
    [1110xxxx 10xxxxxx 10xxxxxx], neither overlong (first byte [0xE0] needs
    a second byte of at least [0xA0]) nor a surrogate (first byte [0xED]
    needs a second byte of at most [0x9F]). *)
Definition rune3 (c1 c2 c3 : ascii) : option Z :=
  if (224 <=? byte c1) && (byte c1 <=? 239) && cont c2 && cont c3
     && negb ((byte c1 =? 224) && (byte c2 <? 160))
     && negb ((byte c1 =? 237) && (159 <? byte c2))
  then Some (Z.lor (Z.shiftl (Z.land (byte c1) 15) 12)
               (Z.lor (Z.shiftl (Z.land (byte c2) 63) 6) (Z.land (byte c3) 63)))
  else None.

Definition isSpace1 (c1 : ascii) : bool :=
  match rune1 c1 with Some r => IsSpace r | None => false end.

Definition isSpace2 (c1 c2 : ascii) : bool :=
  match rune2 c1 c2 with Some r => IsSpace r | None => false end.

Definition isSpace3 (c1 c2 c3 : ascii) : bool :=
  match rune3 c1 c2 c3 with Some r => IsSpace r | None => false end.

(** Removes the white-space runes [s] starts with.  No code point of four
    bytes is white space, and a byte sequence that is not valid UTF-8
    decodes to the replacement character, which is not white space
    either. *)
Fixpoint TrimLeftSpace (s : gostring) : gostring :=
  match s with
  | [] => []
  | c1 :: s1 =>
    if isSpace1 c1 then TrimLeftSpace s1
    else match s1 with
         | [] => s
         | c2 :: s2 =>
           if isSpace2 c1 c2 then TrimLeftSpace s2
           else match s2 with
                | [] => s
                | c3 :: s3 => if isSpace3 c1 c2 c3 then TrimLeftSpace s3 else s
                end
         end
  end.

(** The same from the end of [r], which is the string reversed: a rune's
    bytes are met last byte first. *)
Fixpoint TrimLeftSpace_rev (r : gostring) : gostring :=
  match r with
  | [] => []
  | c1 :: r1 =>
    if isSpace1 c1 then TrimLeftSpace_rev r1
    else match r1 with
         | [] => r
         | c2 :: r2 =>
           if isSpace2 c2 c1 then TrimLeftSpace_rev r2
           else match r2 with
                | [] => r
                | c3 :: r3 => if isSpace3 c3 c2 c1 then TrimLeftSpace_rev r3 else r
                end
         end
  end.

Definition TrimRightSpace (s : gostring) : gostring :=
  rev (TrimLeftSpace_rev (rev s)).

(** [strings.TrimSpace(s)]: [s] with all leading and trailing white space
    removed, as defined by Unicode. *)
Definition TrimSpace (s : gostring) : gostring :=
  TrimRightSpace (TrimLeftSpace s).

End strings.

(** ** The [fmt] package

    The values of the context have Go's type [any].  The model has strings,
    integers and booleans, which [fmt.Sprintf("%v", val)] prints as they
    are, in base 10, and as [true] or [false]; a value of any other dynamic
    type is given by the text that the verb prints for it. *)

Inductive Value : Type :=
  | VString (s : gostring)
  | VInt (n : Z)
  | VBool (b : bool)
  | VOther (printed : gostring).

Module fmt.

Definition Sprintf_v (val : Value) : gostring :=
  match val with
  | VString s => s
  | VInt n => str (NilZero.string_of_int (Z.to_int n))
  | VBool true => str "true"
  | VBool false => str "false"
  | VOther printed => printed
  end.

End fmt.

(** ** The data model of Interpreter.go *)

(** [type Context struct { Data map[string]any }] *)
Record Context : Type := { Data : gmap gostring Value }.

(** [type Node interface] with the one method [Interpreter], with its two
    implementations [*TextNode] and [*VarNode]. *)
Inductive Node : Type :=
  | TextNode (Content : gostring)
  | VarNode (Key : gostring).

(** [type Template struct { tree []Node }] *)
Record Template : Type := { tree : list Node }.

(** [func (t *TextNode) Interpreter(ctx *Context) string] *)
Definition TextNode_Interpreter (Content : gostring) (ctx : ptr Context)
  : result gostring :=
  Ok Content.

(** [func (t *VarNode) Interpreter(ctx *Context) string] *)
Definition VarNode_Interpreter (Key : gostring) (ctx : ptr Context)
  : result gostring :=
  let* c := deref ctx in
  match Data c !! Key with
  | None => Ok []
  | Some val => Ok (fmt.Sprintf_v val)
  end.

(** The method call [node.Interpreter(ctx)] through the interface. *)
Definition Node_Interpreter (node : Node) (ctx : ptr Context) : result gostring :=
  match node with
  | TextNode Content => TextNode_Interpreter Content ctx
  | VarNode Key => VarNode_Interpreter Key ctx
  end.

(** The loop [for _, node := range t.tree { s += node.Interpreter(ctx) }],
    from the value [s] has on entry. *)
Fixpoint range_tree (nodes : list Node) (ctx : ptr Context) (s : gostring)
  : result gostring :=
  match nodes with
  | [] => Ok s
  | node :: nodes' =>
    let* o := Node_Interpreter node ctx in
    range_tree nodes' ctx (s ++ o)
  end.

(** [func (t *Template) Interpreter(ctx *Context) string] *)
Definition Template_Interpreter (t : ptr Template) (ctx : ptr Context)
  : result gostring :=
  let* t' := deref t in
  range_tree (tree t') ctx [].

(** ** [ParseTemplate] *)

(** The variables of [ParseTemplate] that the loop changes: the object
    [template] points to and [index]. *)
Record state : Type := { template : ptr Template; index : Z }.

(** [template.tree = append(template.tree, node)] *)
Definition append_tree (p : ptr Template) (node : Node) : result (ptr Template) :=
  let* t := deref p in
  Ok (Some {| tree := tree t ++ [node] |}).

(** How one run of the loop body ends: at a [break], or at its end. *)
Inductive control : Type :=
  | Break (st : state)
  | Continue (st : state).

Definition open_token : gostring := str "{{".
Definition close_token : gostring := str "}}".

(** The body of the [for] loop. *)
Definition loop_body (tmpl : gostring) (st : state) : result control :=
  let* s1 := slice_from tmpl (index st) in
  let startIndex := strings.Index s1 open_token in
  if startIndex =? -1 then
    let* rest := slice_from tmpl (index st) in
    let* t1 := append_tree (template st) (TextNode rest) in
    Ok (Break {| template := t1; index := index st |})
  else
    let* text := slice tmpl (index st) (index st + startIndex) in
    let* t1 := append_tree (template st) (TextNode text) in
    let* s2 := slice_from tmpl (index st + startIndex) in
    let endIndex := strings.Index s2 close_token in
    if endIndex =? -1 then
      Ok (Break {| template := t1; index := index st |})
    else
      let* inner := slice tmpl (index st + startIndex + 2)
                      (index st + startIndex + endIndex) in
      let key := strings.TrimSpace inner in
      let* t2 := append_tree t1 (VarNode key) in
      Ok (Continue {| template := t2;
                      index := index st + startIndex + endIndex + 2 |}).

(** The [for] loop, run for at most [fuel] iterations. *)
Fixpoint loop (fuel : nat) (tmpl : gostring) (st : state) : result state :=
  match fuel with
  | O => OutOfFuel
  | S fuel' =>
    let* c := loop_body tmpl st in
    match c with
    | Break st' => Ok st'
    | Continue st' => loop fuel' tmpl st'
    end
  end.

(** [var template = new(Template); var index = 0] *)
Definition init : state := {| template := Some {| tree := [] |}; index := 0 |}.

Definition ParseTemplate_fuel (fuel : nat) (tmpl : gostring)
  : result (ptr Template) :=
  let* st := loop fuel tmpl init in
  Ok (template st).

(** [func ParseTemplate(tmpl string) *Template].  The loop is given one
    iteration more than the template has bytes; [ParseTemplate_total]
    shows that it never needs more. *)
Definition ParseTemplate (tmpl : gostring) : result (ptr Template) :=
  ParseTemplate_fuel (S (length tmpl)) tmpl.

(** [template.Interpreter(ctx)] on the template [ParseTemplate] returns. *)
Definition Render (tmpl : gostring) (ctx : ptr Context) : result gostring :=
  let* t := ParseTemplate tmpl in
  Template_Interpreter t ctx.

(** The program's own example. *)
Definition main_tmpl : gostring :=
  str "Hello, {{ Name }}! You are {{Age}} years old.".

Definition main_ctx : Context :=
  {| Data := <[str "Name" := VString (str "fengfeng")]>
               (<[str "Age" := VInt 21]> ∅) |}.

Local Open Scope nat_scope.

(** * Definitions for the properties *)

(** ** The loop, unrolled

    [scan s ns]: from a cursor with [s] left to read, the loop appends the
    nodes [ns] to the tree.  The three rules are the three ways through the
    loop body. *)

Inductive scan : gostring → list Node → Prop :=
  | scan_tail s :
      strings.find s open_token = None →
      scan s [TextNode s]
  | scan_unterminated s a :
      strings.find s open_token = Some a →
      strings.find (drop a s) close_token = None →
      scan s [TextNode (take a s)]
  | scan_marker s a e ns :
      strings.find s open_token = Some a →
      strings.find (drop a s) close_token = Some e →
      scan (drop (a + e + 2) s) ns →
      scan s (TextNode (take a s)
              :: VarNode (strings.TrimSpace (take (e - 2) (drop (a + 2) s)))
              :: ns).

(** The number of [VarNode]s of a tree. *)
Fixpoint count_vars (ns : list Node) : nat :=
  match ns with
  | [] => 0
  | TextNode _ :: ns' => count_vars ns'
  | VarNode _ :: ns' => S (count_vars ns')
  end.

(** What a node contributes to the output. *)
Definition node_output (c : Context) (node : Node) : gostring :=
  match node with
  | TextNode Content => Content
  | VarNode Key =>
    match Data c !! Key with
    | None => []
    | Some val => fmt.Sprintf_v val
    end
  end.

(** ** The shape of the tree *)

(** [alternates true ns]: the nodes of [ns] are in turn a [TextNode], a
    [VarNode], a [TextNode], and so on; [alternates false ns] starts with a
    [VarNode] instead. *)
Fixpoint alternates (text_next : bool) (ns : list Node) : bool :=
  match ns with
  | [] => true
  | TextNode _ :: ns' => text_next && alternates false ns'
  | VarNode _ :: ns' => negb text_next && alternates true ns'
  end.

Definition is_text (node : Node) : bool :=
  match node with
  | TextNode _ => true
  | VarNode _ => false
  end.

(** ** Templates put together from markers *)

(** The marker with a given interior. *)
Definition marker (inner : gostring) : gostring :=
  open_token ++ inner ++ close_token.

(** The text before a marker reaches up to the marker's open token, as no
    open token starts in it: it has none, and its last byte is not an
    opening brace. *)
Definition text_ok (text : gostring) : Prop :=
  strings.find text open_token = None ∧ last text ≠ Some "{"%char.

(** The interior of a marker reaches up to the marker's close token, as no
    close token starts in it: it has none, and its last byte is not a
    closing brace. *)
Definition inner_ok (inner : gostring) : Prop :=
  strings.find inner close_token = None ∧ last inner ≠ Some "}"%char.

(** ** White space *)

(** A string of white-space runes only. *)
Inductive white : gostring → Prop :=
  | white_nil : white []
  | white_1 c1 s :
      strings.isSpace1 c1 = true → white s → white (c1 :: s)
  | white_2 c1 c2 s :
      strings.isSpace2 c1 c2 = true → white s → white (c1 :: c2 :: s)
  | white_3 c1 c2 c3 s :
      strings.isSpace3 c1 c2 c3 = true → white s → white (c1 :: c2 :: c3 :: s).

(** ** Markers in a row *)

(** The start of a template, as the scan reads it: markers, each with the
    text before it and its interior. *)
Definition pieces_source (ms : list (gostring * gostring)) : gostring :=
  concat ((λ m, m.1 ++ marker m.2) <$> ms).

Definition pieces_nodes (ms : list (gostring * gostring)) : list Node :=
  concat ((λ m, [TextNode m.1; VarNode (strings.TrimSpace m.2)]) <$> ms).

Definition pieces_ok (ms : list (gostring * gostring)) : Prop :=
  Forall (λ m, text_ok m.1 ∧ inner_ok m.2) ms.

(** ** Well-formed templates *)

(** Every open token has a close token that starts after it. *)
Definition well_formed (tmpl : gostring) : Prop :=
  ∀ i, strings.HasPrefix (drop i tmpl) open_token = true →
       ∃ j, i + 2 ≤ j ∧ strings.HasPrefix (drop j tmpl) close_token = true.

(** The same, checked position by position. *)
Definition well_formedb (tmpl : gostring) : bool :=
  forallb (λ i, implb (strings.HasPrefix (drop i tmpl) open_token)
                  (bool_decide (is_Some (strings.find (drop (i + 2) tmpl) close_token))))
    (seq 0 (length tmpl)).

(** The keys of the [VarNode]s of a tree, in order. *)
Fixpoint keys (ns : list Node) : list gostring :=
  match ns with
  | [] => []
  | TextNode _ :: ns' => keys ns'
  | VarNode Key :: ns' => Key :: keys ns'
  end.

(** The total length of the text of the [TextNode]s of a tree. *)
Fixpoint literal_length (ns : list Node) : nat :=
  match ns with
  | [] => 0
  | TextNode Content :: ns' => length Content + literal_length ns'
  | VarNode _ :: ns' => literal_length ns'
  end.

(** The keys a template refers to. *)
Definition referenced_keys (tmpl : gostring) : list gostring :=
  match ParseTemplate tmpl with
  | Ok (Some t) => keys (tree t)
  | _ => []
  end.

(** ** Markers that are not closed *)

(** An open token at [i] with no close token after it. *)
Definition unmatched (tmpl : gostring) (i : nat) : Prop :=
  strings.HasPrefix (drop i tmpl) open_token = true
  ∧ strings.find (drop i tmpl) close_token = None.

(** ** The contents of a tree *)

(** The text of the [TextNode]s of a tree, in order. *)
Fixpoint texts (ns : list Node) : list gostring :=
  match ns with
  | [] => []
  | TextNode Content :: ns' => Content :: texts ns'
  | VarNode _ :: ns' => texts ns'
  end.

(** ** Trimming, in general

    [TrimLeftSpace] and [TrimLeftSpace_rev] are the same function of the
    tests for a rune of one, two and three bytes. *)

Fixpoint trim_with (p1 : ascii → bool) (p2 : ascii → ascii → bool)
    (p3 : ascii → ascii → ascii → bool) (s : gostring) : gostring :=
  match s with
  | [] => []
  | c1 :: s1 =>
    if p1 c1 then trim_with p1 p2 p3 s1
    else match s1 with
         | [] => s
         | c2 :: s2 =>
           if p2 c1 c2 then trim_with p1 p2 p3 s2
           else match s2 with
                | [] => s
                | c3 :: s3 => if p3 c1 c2 c3 then trim_with p1 p2 p3 s3 else s
                end
         end
  end.

(** [s] starts with a rune that one of the tests accepts. *)
Definition starts_with (p1 : ascii → bool) (p2 : ascii → ascii → bool)
    (p3 : ascii → ascii → ascii → bool) (s : gostring) : bool :=
  match s with
  | [] => false
  | c1 :: s1 =>
    p1 c1
    || match s1 with
       | [] => false
       | c2 :: s2 =>
         p2 c1 c2
         || match s2 with
            | [] => false
            | c3 :: _ => p3 c1 c2 c3
            end
       end
  end.

(** * Properties *)

(** ** The library functions and the program on examples *)

Example slice_ex : slice (str "Hello, {{x}}") 7%Z 12%Z = Ok (str "{{x}}").
Proof. reflexivity. Qed.

Example Index_ex : strings.Index (str "Hello, {{x}}") (str "{{") = 7%Z.
Proof. reflexivity. Qed.

Example Index_none : strings.Index (str "Hello") (str "{{") = (-1)%Z.
Proof. reflexivity. Qed.

Example TrimSpace_ex : strings.TrimSpace (str " 	Name  ") = str "Name".
Proof. reflexivity. Qed.

(** A no-break space (C2 A0) before and an ideographic space (E3 80 80)
    after are white space too; a lone byte C2 is not. *)
Example TrimSpace_unicode :
  strings.TrimSpace
    ([ascii_of_nat 194; ascii_of_nat 160] ++ str "a b"
     ++ [ascii_of_nat 227; ascii_of_nat 128; ascii_of_nat 128])
  = str "a b"
  ∧ strings.TrimSpace ([ascii_of_nat 194] ++ str " a") = [ascii_of_nat 194] ++ str " a".
Proof. split; reflexivity. Qed.

Example Sprintf_v_int : fmt.Sprintf_v (VInt 21) = str "21".
Proof. reflexivity. Qed.

Example Sprintf_v_neg : fmt.Sprintf_v (VInt (-305)) = str "-305".
Proof. reflexivity. Qed.

Example parse_main :
  ParseTemplate main_tmpl =
  Ok (Some {| tree := [TextNode (str "Hello, "); VarNode (str "Name");
                       TextNode (str "! You are "); VarNode (str "Age");
                       TextNode (str " years old.")] |}).
Proof. vm_compute. reflexivity. Qed.

(** Two markers with nothing between them have an empty [TextNode]
    between their [VarNode]s. *)
Example parse_adjacent :
  ParseTemplate (str "{{a}}{{b}}")
  = Ok (Some {| tree := [TextNode []; VarNode (str "a"); TextNode [];
                         VarNode (str "b"); TextNode []] |})
  ∧ Render (str "{{a}}{{b}}")
      (Some {| Data := <[str "a" := VString (str "1")]>
                         (<[str "b" := VString (str "2")]> ∅) |})
    = Ok (str "12").
Proof. split; vm_compute; reflexivity. Qed.

Example render_trimmed :
  Render (str "{{ name }}") (Some {| Data := {[ str "name" := VString (str "a") ]} |})
  = Ok (str "a").
Proof. vm_compute. reflexivity. Qed.

Example parse_unterminated :
  ParseTemplate (str "Hi {{a}}, {{b")
  = Ok (Some {| tree := [TextNode (str "Hi "); VarNode (str "a");
                         TextNode (str ", ")] |}).
Proof. vm_compute. reflexivity. Qed.

(** ** Searching a string *)

Section find_facts.

Import strings.

Lemma HasPrefix_inv (s p : gostring) :
  HasPrefix s p = true → s = p ++ drop (length p) s.
Proof.
  revert s. induction p as [|c p IH]; intros [|d s]; simpl; try done.
  destruct (Ascii.eqb d c) eqn:E; [|done].
  apply Ascii.eqb_eq in E as ->. intros H. f_equal. by apply IH.
Qed.

Lemma HasPrefix_length (s p : gostring) :
  HasPrefix s p = true → length p ≤ length s.
Proof.
  intros H%HasPrefix_inv. rewrite H, length_app. lia.
Qed.

Lemma find_Some (s p : gostring) (i : nat) :
  find s p = Some i →
  HasPrefix (drop i s) p = true ∧ i + length p ≤ length s
  ∧ ∀ j, j < i → HasPrefix (drop j s) p = false.
Proof.
  revert i. induction s as [|c s IH]; intros i; simpl.
  - destruct (HasPrefix [] p) eqn:E; [|done].
    intros [= <-]. split; [done|]. split; [|lia].
    apply HasPrefix_length in E. simpl in *. lia.
  - destruct (HasPrefix (c :: s) p) eqn:E.
    + intros [= <-]. split; [done|]. split; [|lia].
      apply HasPrefix_length in E. simpl in *. lia.
    + destruct (find s p) as [k|] eqn:F; [|done].
      intros [= <-]. destruct (IH k eq_refl) as (H1 & H2 & H3).
      split; [done|]. split; [simpl; lia|].
      intros [|j] Hj; [done|]. simpl. apply H3. lia.
Qed.

Lemma find_None (s p : gostring) (j : nat) :
  find s p = None → HasPrefix (drop j s) p = false.
Proof.
  revert j. induction s as [|c s IH]; intros j; simpl.
  - destruct (HasPrefix [] p) eqn:E; [done|]. by rewrite drop_nil.
  - destruct (HasPrefix (c :: s) p) eqn:E; [done|].
    destruct (find s p) eqn:F; [done|]. intros _.
    destruct j as [|j]; [done|]. simpl. by apply IH.
Qed.

Lemma find_first (s p : gostring) (i : nat) :
  HasPrefix (drop i s) p = true →
  (∀ j, j < i → HasPrefix (drop j s) p = false) →
  find s p = Some i.
Proof.
  revert s. induction i as [|i IH]; intros s H1 H2.
  - destruct s; simpl in *; by rewrite H1.
  - destruct s as [|c s].
    + rewrite drop_nil in H1. specialize (H2 0 ltac:(lia)). simpl in H2. congruence.
    + pose proof (H2 0 ltac:(lia)) as H0. simpl in H0, H1 |- *. rewrite H0.
      rewrite (IH s H1); [done|].
      intros j Hj. apply (H2 (S j)). lia.
Qed.

Lemma find_is_Some (s p : gostring) (i : nat) :
  HasPrefix (drop i s) p = true → ∃ a, a ≤ i ∧ find s p = Some a.
Proof.
  intros H. destruct (find s p) as [a|] eqn:F.
  - exists a. split; [|done].
    destruct (decide (a ≤ i)) as [|Hn]; [done|].
    apply find_Some in F as (_ & _ & F). rewrite F in H; [done|lia].
  - by rewrite (find_None _ _ i F) in H.
Qed.

(** A token of twice the byte [b]. *)
Lemma find_pair_cons (b c : ascii) (s : gostring) :
  find (c :: s) [b; b] =
  if (if Ascii.eqb c b then HasPrefix s [b] else false)
  then Some 0 else S <$> find s [b; b].
Proof. reflexivity. Qed.

(** The token put after [s] is the first one exactly when [s] has none and
    does not end in [b]. *)
Lemma find_pair_end (b : ascii) (s : gostring) :
  find (s ++ [b; b]) [b; b] = Some (length s)
  ↔ find s [b; b] = None ∧ last s ≠ Some b.
Proof.
  induction s as [|c s IH].
  - cbn. rewrite Ascii.eqb_refl. cbn. split; [done|]. intros _. done.
  - rewrite <- app_comm_cons, !find_pair_cons. cbn [length].
    destruct s as [|d s].
    + cbn [app HasPrefix last]. rewrite Ascii.eqb_refl.
      destruct (Ascii.eqb_spec c b) as [->|Hcb].
      * split; [done|]. intros [_ H]. done.
      * cbn. rewrite Ascii.eqb_refl. cbn. split; [|done].
        intros _. split; [done|]. congruence.
    + change (HasPrefix ((d :: s) ++ [b; b]) [b])
        with (if Ascii.eqb d b then true else false).
      change (HasPrefix (d :: s) [b]) with (if Ascii.eqb d b then true else false).
      rewrite last_cons_cons.
      destruct (if Ascii.eqb c b then if Ascii.eqb d b then true else false
                else false).
      * split; [done|]. intros [? _]. done.
      * destruct IH as [IH1 IH2]. split.
        -- intros H.
           destruct (find ((d :: s) ++ [b; b]) [b; b]) as [n|] eqn:E; [|done].
           injection H as ->. destruct (IH1 eq_refl) as [-> ?]. done.
        -- intros [H1 H2]. destruct (find (d :: s) [b; b]); [done|].
           by rewrite (IH2 (conj eq_refl H2)).
Qed.

End find_facts.

(** ** Slices within bounds *)

Lemma slice_nat (s : gostring) (lo hi : nat) :
  lo ≤ hi → hi ≤ length s →
  slice s (Z.of_nat lo) (Z.of_nat hi) = Ok (take (hi - lo) (drop lo s)).
Proof.
  intros H1 H2. unfold slice, len.
  replace ((0 <=? Z.of_nat lo)%Z && (Z.of_nat lo <=? Z.of_nat hi)%Z
           && (Z.of_nat hi <=? Z.of_nat (length s))%Z) with true.
  - by rewrite <- Nat2Z.inj_sub, !Nat2Z.id.
  - symmetry. rewrite !andb_true_iff, !Z.leb_le. lia.
Qed.

Lemma slice_from_nat (s : gostring) (lo : nat) :
  lo ≤ length s → slice_from s (Z.of_nat lo) = Ok (drop lo s).
Proof.
  intros H. unfold slice_from, len. rewrite slice_nat by lia.
  rewrite take_ge; [done|]. rewrite length_drop. lia.
Qed.

(** A slice taken out of bounds panics. *)
Lemma slice_panic (s : gostring) (lo hi : Z) :
  (lo < 0 ∨ hi < lo ∨ len s < hi)%Z → slice s lo hi = Panic.
Proof.
  intros H. unfold slice.
  destruct ((0 <=? lo)%Z && (lo <=? hi)%Z && (hi <=? len s)%Z) eqn:E; [|done].
  rewrite !andb_true_iff, !Z.leb_le in E. lia.
Qed.

(** ** The two tokens *)

Section tokens.

Import strings.

(** A string that starts with the open token has no close token at offset
    0 or 1. *)
Lemma close_after_open (s : gostring) (e : nat) :
  HasPrefix s open_token = true → find s close_token = Some e → 2 ≤ e.
Proof.
  intros Ho Hc. apply HasPrefix_inv in Ho. apply find_Some in Hc as (Hc & _).
  destruct s as [|c1 [|c2 s]]; try discriminate Ho.
  injection Ho as -> ->.
  destruct e as [|[|e]]; [discriminate Hc| |lia].
  simpl in Hc. destruct s; discriminate Hc.
Qed.

Lemma text_ok_find (text : gostring) :
  text_ok text ↔ find (text ++ open_token) open_token = Some (length text).
Proof. symmetry. apply (find_pair_end "{"). Qed.

Lemma inner_ok_find (inner : gostring) :
  inner_ok inner ↔ find (inner ++ close_token) close_token = Some (length inner).
Proof. symmetry. apply (find_pair_end "}"). Qed.

(** No open token starts on the second byte of a close token. *)
Lemma open_not_in_close (s : gostring) :
  HasPrefix s close_token = true → HasPrefix (drop 1 s) open_token = false.
Proof.
  intros Hc. apply HasPrefix_inv in Hc.
  destruct s as [|c1 [|c2 s]]; try discriminate Hc.
  injection Hc as -> ->. by destruct s.
Qed.

End tokens.

(** ** The loop of [ParseTemplate] *)

Section loop_facts.

Import strings.

(** What a found marker says about offsets. *)
Lemma marker_offsets (s : gostring) (a e : nat) :
  find s open_token = Some a → find (drop a s) close_token = Some e →
  2 ≤ e ∧ a + e + 2 ≤ length s.
Proof.
  intros Ho Hc. apply find_Some in Ho as (Ho & _ & _).
  split; [by eapply close_after_open|].
  apply find_Some in Hc as (_ & Hc & _).
  rewrite length_drop in Hc. simpl in Hc.
  apply HasPrefix_length in Ho. rewrite length_drop in Ho. simpl in Ho. lia.
Qed.

(** The sums of [ParseTemplate], from a cursor [i] within the template:
    none is negative or exceeds the length of the template. *)
Lemma int_bounds (tmpl : gostring) (i : nat) :
  i ≤ length tmpl →
  let startIndex := Index (drop i tmpl) open_token in
  let endIndex := Index (drop (i + Z.to_nat startIndex) tmpl) close_token in
  startIndex ≠ (-1)%Z →
  (0 ≤ Z.of_nat i + startIndex ∧ Z.of_nat i + startIndex + 2 ≤ len tmpl)%Z
  ∧ (endIndex ≠ (-1)%Z →
     (Z.of_nat i + startIndex + 2 ≤ Z.of_nat i + startIndex + endIndex
      ∧ Z.of_nat i + startIndex + endIndex + 2 ≤ len tmpl)%Z).
Proof.
  intros Hi. cbn zeta. unfold Index, len.
  destruct (find (drop i tmpl) open_token) as [a|] eqn:Ho; [|done]. intros _.
  pose proof Ho as (_ & Ho2 & _)%find_Some.
  rewrite length_drop in Ho2. simpl in Ho2. split; [lia|].
  rewrite Nat2Z.id, <- drop_drop.
  destruct (find (drop a (drop i tmpl)) close_token) as [e|] eqn:Hc; [|done].
  intros _. destruct (marker_offsets _ _ _ Ho Hc) as [He Hl].
  rewrite length_drop in Hl. lia.
Qed.

Lemma scan_total (s : gostring) : ∃ ns, scan s ns.
Proof.
  remember (length s) as n eqn:Hn. revert s Hn.
  induction (lt_wf n) as [n _ IH]. intros s ->.
  destruct (find s open_token) as [a|] eqn:Ho; [|by eexists; apply scan_tail].
  destruct (find (drop a s) close_token) as [e|] eqn:Hc;
    [|by eexists; eapply scan_unterminated].
  destruct (marker_offsets _ _ _ Ho Hc) as [He Hl].
  destruct (IH (length (drop (a + e + 2) s))) with (s := drop (a + e + 2) s)
    as [ns Hns]; [rewrite length_drop; lia|done|].
  eexists. by eapply scan_marker.
Qed.

Lemma scan_functional (s : gostring) (ns ns' : list Node) :
  scan s ns → scan s ns' → ns = ns'.
Proof.
  intros H. revert ns'.
  induction H as [s Ho|s a Ho Hc|s a e ns Ho Hc H IH]; intros ns' H';
    inversion H'; subst; try congruence.
  assert (a0 = a) as -> by congruence.
  assert (e0 = e) as -> by congruence.
  f_equal. f_equal. by apply IH.
Qed.

(** Every [VarNode] accounts for at least four bytes of the input. *)
Lemma scan_count_vars (s : gostring) (ns : list Node) :
  scan s ns → 4 * count_vars ns ≤ length s.
Proof.
  induction 1 as [s Ho|s a Ho Hc|s a e ns Ho Hc H IH]; simpl; [lia|lia|].
  destruct (marker_offsets _ _ _ Ho Hc) as [He Hl].
  rewrite length_drop in IH. lia.
Qed.

(** One run of the loop body, from a cursor within the template. *)
Lemma loop_body_eq (tmpl : gostring) (ns : list Node) (i : nat) :
  i ≤ length tmpl →
  loop_body tmpl {| template := Some {| tree := ns |}; index := Z.of_nat i |} =
  Ok match find (drop i tmpl) open_token with
     | None =>
         Break {| template := Some {| tree := ns ++ [TextNode (drop i tmpl)] |};
                  index := Z.of_nat i |}
     | Some a =>
         let t1 := ns ++ [TextNode (take a (drop i tmpl))] in
         match find (drop a (drop i tmpl)) close_token with
         | None => Break {| template := Some {| tree := t1 |};
                            index := Z.of_nat i |}
         | Some e =>
             Continue
               {| template :=
                    Some {| tree :=
                      t1 ++ [VarNode (TrimSpace
                                        (take (e - 2) (drop (a + 2) (drop i tmpl))))] |};
                  index := Z.of_nat (i + a + e + 2) |}
         end
     end.
Proof.
  intros Hi. unfold loop_body. simpl.
  rewrite slice_from_nat by done. simpl.
  unfold Index.
  destruct (find (drop i tmpl) open_token) as [a|] eqn:Ho; simpl; [|done].
  replace (Z.of_nat a =? -1)%Z with false by (symmetry; apply Z.eqb_neq; lia).
  pose proof Ho as (Ho1 & Ho2 & _)%find_Some.
  rewrite length_drop in Ho2. simpl in Ho2.
  rewrite <- Nat2Z.inj_add.
  rewrite slice_nat by lia. simpl.
  rewrite slice_from_nat by lia. simpl.
  replace (i + a - i) with a by lia.
  rewrite <- drop_drop.
  destruct (find (drop a (drop i tmpl)) close_token) as [e|] eqn:Hc; simpl; [|done].
  replace (Z.of_nat e =? -1)%Z with false by (symmetry; apply Z.eqb_neq; lia).
  destruct (marker_offsets _ _ _ Ho Hc) as [He Hl].
  rewrite length_drop in Hl.
  replace (Z.of_nat (i + a) + 2)%Z with (Z.of_nat (i + a + 2)) by lia.
  replace (Z.of_nat (i + a) + Z.of_nat e)%Z with (Z.of_nat (i + a + e)) by lia.
  rewrite slice_nat by lia. simpl.
  replace (i + a + e - (i + a + 2)) with (e - 2) by lia.
  replace (drop (i + a + 2) tmpl) with (drop (a + 2) (drop i tmpl))
    by (rewrite drop_drop; f_equal; lia).
  do 3 f_equal. lia.
Qed.

(** The loop from a cursor: it runs once more than there are markers left,
    and appends what [scan] says. *)
Lemma loop_scan (s : gostring) (ns' : list Node) :
  scan s ns' →
  ∀ (tmpl : gostring) (i : nat) (ns : list Node) (fuel : nat),
    s = drop i tmpl → i ≤ length tmpl →
    (fuel ≤ count_vars ns' →
     loop fuel tmpl {| template := Some {| tree := ns |}; index := Z.of_nat i |}
     = OutOfFuel)
    ∧ (count_vars ns' < fuel →
       ∃ j, loop fuel tmpl
              {| template := Some {| tree := ns |}; index := Z.of_nat i |}
            = Ok {| template := Some {| tree := ns ++ ns' |};
                    index := Z.of_nat j |}).
Proof.
  induction 1 as [s Ho|s a Ho Hc|s a e ns' Ho Hc H IH];
    intros tmpl i ns fuel -> Hi.
  - split; intros Hf; destruct fuel as [|fuel]; simpl in *; try done; try lia.
    rewrite loop_body_eq, Ho by done. simpl. by exists i.
  - split; intros Hf; destruct fuel as [|fuel]; simpl in *; try done; try lia.
    rewrite loop_body_eq, Ho by done. simpl. rewrite Hc. by exists i.
  - destruct (marker_offsets _ _ _ Ho Hc) as [He Hl].
    rewrite length_drop in Hl.
    destruct fuel as [|fuel]; [split; [done|lia]|].
    simpl. rewrite loop_body_eq, Ho by done. simpl. rewrite Hc.
    destruct (IH tmpl (i + a + e + 2)
                ((ns ++ [TextNode (take a (drop i tmpl))])
                 ++ [VarNode (TrimSpace (take (e - 2) (drop (a + 2) (drop i tmpl))))])
                fuel) as [IH1 IH2].
    { rewrite drop_drop. f_equal. lia. }
    { lia. }
    split; intros Hf.
    + apply IH1. lia.
    + destruct IH2 as [j Hj]; [lia|]. exists j. rewrite Hj.
      by rewrite <- !app_assoc.
Qed.

End loop_facts.

(** ** [ParseTemplate] and [scan] *)

Lemma ParseTemplate_fuel_scan (tmpl : gostring) (ns : list Node) (fuel : nat) :
  scan tmpl ns →
  ParseTemplate_fuel fuel tmpl =
  if decide (fuel ≤ count_vars ns) then OutOfFuel
  else Ok (Some {| tree := ns |}).
Proof.
  intros H. unfold ParseTemplate_fuel, init.
  destruct (loop_scan _ _ H tmpl 0 [] fuel eq_refl ltac:(lia)) as [H1 H2].
  change (Z.of_nat 0) with 0%Z in *.
  case_decide as Hf.
  - by rewrite H1.
  - destruct H2 as [j ->]; [lia|]. done.
Qed.

Lemma ParseTemplate_scan (tmpl : gostring) (ns : list Node) :
  scan tmpl ns → ParseTemplate tmpl = Ok (Some {| tree := ns |}).
Proof.
  intros H. unfold ParseTemplate. rewrite (ParseTemplate_fuel_scan _ ns) by done.
  apply scan_count_vars in H. case_decide; [lia|done].
Qed.

Lemma ParseTemplate_total (tmpl : gostring) :
  ∃ ns, scan tmpl ns ∧ ParseTemplate tmpl = Ok (Some {| tree := ns |}).
Proof.
  destruct (scan_total tmpl) as [ns H]. exists ns. split; [done|].
  by apply ParseTemplate_scan.
Qed.

(** ** Rendering a tree *)

Lemma range_tree_eq (nodes : list Node) (c : Context) (s : gostring) :
  range_tree nodes (Some c) s = Ok (s ++ concat (node_output c <$> nodes)).
Proof.
  revert s. induction nodes as [|node nodes IH]; intros s.
  - simpl. by rewrite app_nil_r.
  - rewrite fmap_cons. cbn [concat].
    destruct node as [Content|Key];
      cbn [range_tree Node_Interpreter TextNode_Interpreter
           VarNode_Interpreter node_output bind deref].
    + by rewrite IH, <- app_assoc.
    + destruct (Data c !! Key); cbn [bind]; by rewrite IH, <- app_assoc.
Qed.

Lemma Template_Interpreter_eq (t : Template) (c : Context) :
  Template_Interpreter (Some t) (Some c)
  = Ok (concat (node_output c <$> tree t)).
Proof. unfold Template_Interpreter. simpl. by rewrite range_tree_eq. Qed.

(** ** The shape of the tree *)

Lemma scan_shape (s : gostring) (ns : list Node) :
  scan s ns →
  is_text <$> head ns = Some true ∧ alternates true ns = true
  ∧ is_text <$> last ns = Some true.
Proof.
  induction 1 as [s Ho|s a Ho Hc|s a e ns Ho Hc H (IH1 & IH2 & IH3)]; [done..|].
  split; [done|]. split; [done|].
  destruct ns as [|n ns]; [done|]. by rewrite !last_cons_cons.
Qed.

(** ** Templates put together from markers *)

Section marker_facts.

Import strings.

Lemma HasPrefix_app_l (s x p : gostring) :
  length p ≤ length s → HasPrefix (s ++ x) p = HasPrefix s p.
Proof.
  revert s. induction p as [|c p IH]; intros [|d s] H; simpl in *; try done; try lia.
  destruct (Ascii.eqb d c); [|done]. apply IH. lia.
Qed.

(** The first instance of [p] in [s] is the first one in [s ++ x] too. *)
Lemma find_app_l (s x p : gostring) (i : nat) :
  find s p = Some i → find (s ++ x) p = Some i.
Proof.
  intros H. pose proof H as (H1 & H2 & H3)%find_Some.
  apply find_first.
  - rewrite drop_app_le by lia. rewrite HasPrefix_app_l; [done|].
    rewrite length_drop. lia.
  - intros j Hj. rewrite drop_app_le by lia. rewrite HasPrefix_app_l.
    + by apply H3.
    + rewrite length_drop. lia.
Qed.

Lemma find_after_open (s : gostring) (n : nat) :
  find s close_token = Some n → find (open_token ++ s) close_token = Some (2 + n).
Proof. intros H. simpl. by rewrite H. Qed.

(** One marker, the text before it and whatever follows. *)
Lemma scan_marker_app (text inner post : gostring) (ns : list Node) :
  text_ok text → inner_ok inner → scan post ns →
  scan (text ++ marker inner ++ post)
       (TextNode text :: VarNode (TrimSpace inner) :: ns).
Proof.
  intros Ht%text_ok_find Hi%inner_ok_find Hs. unfold marker.
  assert (find (text ++ (open_token ++ inner ++ close_token) ++ post) open_token
          = Some (length text)) as Ho.
  { rewrite <- !app_assoc, (app_assoc text). by apply find_app_l. }
  assert (find (drop (length text)
                  (text ++ (open_token ++ inner ++ close_token) ++ post))
            close_token = Some (2 + length inner)) as Hc.
  { rewrite drop_app_length, <- !app_assoc. apply find_after_open.
    rewrite app_assoc. by apply find_app_l. }
  pose proof (scan_marker _ _ _ ns Ho Hc) as H.
  rewrite take_app_length in H.
  replace (drop (length text + 2)
             (text ++ (open_token ++ inner ++ close_token) ++ post))
    with (inner ++ close_token ++ post) in H.
  2:{ rewrite <- drop_drop, drop_app_length, <- !app_assoc. done. }
  replace (2 + length inner - 2) with (length inner) in H by lia.
  rewrite take_app_length in H. apply H.
  replace (length text + (2 + length inner) + 2)
    with (length (text ++ (open_token ++ inner ++ close_token))).
  - by rewrite (app_assoc text (open_token ++ inner ++ close_token) post),
       drop_app_length.
  - rewrite !length_app. simpl. lia.
Qed.

End marker_facts.

(** ** White space *)

Section white_facts.

Import strings.

Ltac bytes :=
  unfold isSpace1, isSpace2, isSpace3, rune1, rune2, rune3, cont in *;
  repeat match goal with
         | |- context [(?a <=? ?b)%Z] => destruct (Z.leb_spec a b)
         | |- context [(?a <? ?b)%Z] => destruct (Z.ltb_spec a b)
         | |- context [(?a =? ?b)%Z] => destruct (Z.eqb_spec a b)
         | H : context [(?a <=? ?b)%Z] |- _ => destruct (Z.leb_spec a b)
         | H : context [(?a <? ?b)%Z] |- _ => destruct (Z.ltb_spec a b)
         | H : context [(?a =? ?b)%Z] |- _ => destruct (Z.eqb_spec a b)
         end;
  simpl in *; try done; try lia.

Lemma isSpace1_start c : isSpace1 c = true → cont c = false.
Proof. intros H. bytes. Qed.

Lemma isSpace2_bytes c1 c2 :
  isSpace2 c1 c2 = true → isSpace1 c1 = false ∧ cont c1 = false ∧ cont c2 = true.
Proof. intros H. bytes. Qed.

Lemma isSpace3_bytes c1 c2 c3 :
  isSpace3 c1 c2 c3 = true →
  isSpace1 c1 = false ∧ cont c1 = false ∧ cont c2 = true ∧ cont c3 = true.
Proof. intros H. bytes. Qed.

Lemma isSpace3_not2 c1 c2 c3 x :
  isSpace3 c1 c2 c3 = true → isSpace2 c1 x = false.
Proof. intros H. bytes. Qed.

Lemma cont_not_space c x :
  cont c = true → isSpace1 c = false ∧ isSpace2 c x = false.
Proof. intros H. bytes. Qed.

Lemma isSpace2_cont c1 c2 : cont c2 = false → isSpace2 c1 c2 = false.
Proof. intros H. bytes. Qed.

Lemma isSpace3_cont2 c1 c2 c3 : cont c2 = false → isSpace3 c1 c2 c3 = false.
Proof. intros H. bytes. Qed.

Lemma isSpace3_cont3 c1 c2 c3 : cont c3 = false → isSpace3 c1 c2 c3 = false.
Proof. intros H. bytes. Qed.

(** The first byte of white space starts a rune. *)
Lemma white_start c s : white (c :: s) → cont c = false.
Proof.
  inversion 1; subst.
  - by apply isSpace1_start.
  - by eapply isSpace2_bytes.
  - by eapply isSpace3_bytes.
Qed.

Lemma TrimLeftSpace_white (ws s : gostring) :
  white ws → TrimLeftSpace (ws ++ s) = TrimLeftSpace s.
Proof.
  induction 1 as [|c1 ws H1 _ IH|c1 c2 ws H2 _ IH|c1 c2 c3 ws H3 _ IH]; [done|..].
  - cbn [app TrimLeftSpace]. by rewrite H1.
  - destruct (isSpace2_bytes _ _ H2) as (E1 & _).
    cbn [app TrimLeftSpace]. by rewrite E1, H2.
  - destruct (isSpace3_bytes _ _ _ H3) as (E1 & _).
    cbn [app TrimLeftSpace]. by rewrite E1, (isSpace3_not2 _ _ _ c2 H3), H3.
Qed.

Lemma TrimLeftSpace_rev_white (ws r : gostring) :
  white ws → TrimLeftSpace_rev (rev ws ++ r) = TrimLeftSpace_rev r.
Proof.
  intros H. revert r.
  induction H as [|c1 ws H1 _ IH|c1 c2 ws H2 _ IH|c1 c2 c3 ws H3 _ IH];
    intros r; [done|..]; cbn [rev]; rewrite <- ?app_assoc, IH;
    cbn [app TrimLeftSpace_rev].
  - by rewrite H1.
  - destruct (isSpace2_bytes _ _ H2) as (_ & _ & E2).
    destruct (cont_not_space c2 c1 E2) as (-> & _). by rewrite H2.
  - destruct (isSpace3_bytes _ _ _ H3) as (_ & _ & E2 & E3).
    destruct (cont_not_space c3 c2 E3) as (-> & _).
    destruct (cont_not_space c2 c3 E2) as (_ & ->). by rewrite H3.
Qed.

Lemma TrimRightSpace_white (s ws : gostring) :
  white ws → TrimRightSpace (s ++ ws) = TrimRightSpace s.
Proof.
  intros H. unfold TrimRightSpace. by rewrite rev_app_distr, TrimLeftSpace_rev_white.
Qed.

(** White space after [k] is no part of what [TrimLeftSpace] removes from
    [k], unless it removes all of [k]. *)
Lemma TrimLeftSpace_app_white (k ws : gostring) :
  white ws →
  TrimLeftSpace (k ++ ws) =
  match TrimLeftSpace k with
  | [] => []
  | x => x ++ ws
  end.
Proof.
  intros Hw. remember (length k) as n eqn:Hn. revert k Hn.
  induction (lt_wf n) as [n _ IH]. intros k ->.
  destruct k as [|c1 k1].
  { cbn [app TrimLeftSpace]. rewrite <- (app_nil_r ws).
    by rewrite TrimLeftSpace_white. }
  cbn [app TrimLeftSpace].
  destruct (isSpace1 c1) eqn:E1.
  { eapply IH; [|done]. simpl. lia. }
  destruct k1 as [|c2 k2].
  { cbn [app]. destruct ws as [|w1 ws]; [done|].
    pose proof (white_start _ _ Hw) as Hc.
    rewrite (isSpace2_cont _ _ Hc).
    destruct ws; [done|]. by rewrite (isSpace3_cont2 _ _ _ Hc). }
  cbn [app].
  destruct (isSpace2 c1 c2) eqn:E2.
  { eapply IH; [|done]. simpl. lia. }
  destruct k2 as [|c3 k3].
  { cbn [app]. destruct ws as [|w1 ws]; [done|].
    pose proof (white_start _ _ Hw) as Hc.
    by rewrite (isSpace3_cont3 _ _ _ Hc). }
  cbn [app].
  destruct (isSpace3 c1 c2 c3) eqn:E3; [|done].
  eapply IH; [|done]. simpl. lia.
Qed.

(** White space around a string does not change what [TrimSpace] leaves. *)
Lemma TrimSpace_white (ws1 k ws2 : gostring) :
  white ws1 → white ws2 → TrimSpace (ws1 ++ k ++ ws2) = TrimSpace k.
Proof.
  intros H1 H2. unfold TrimSpace.
  rewrite TrimLeftSpace_white, TrimLeftSpace_app_white by done.
  destruct (TrimLeftSpace k) as [|c x] eqn:E; [done|].
  by rewrite TrimRightSpace_white.
Qed.

(** White space has no closing brace, so it closes no marker. *)
Lemma white_no_brace (ws : gostring) :
  white ws → Forall (λ c, Ascii.eqb c "}" = false) ws.
Proof.
  assert (∀ c, isSpace1 c = true ∨ cont c = true ∨ (194 <= byte c)%Z →
               Ascii.eqb c "}" = false) as Hb.
  { intros c H. destruct (Ascii.eqb_spec c "}") as [->|]; [|done].
    destruct H as [H|[H|H]]; vm_compute in H; done. }
  induction 1 as [|c1 ws H1 _ IH|c1 c2 ws H2 _ IH|c1 c2 c3 ws H3 _ IH]; [done|..].
  - constructor; [|done]. apply Hb. by left.
  - destruct (isSpace2_bytes _ _ H2) as (_ & _ & E2).
    constructor; [|constructor; [|done]]; apply Hb; [|by right; left].
    right; right. clear -H2. bytes.
  - destruct (isSpace3_bytes _ _ _ H3) as (_ & _ & E2 & E3).
    constructor; [|constructor; [|constructor; [|done]]]; apply Hb;
      [|by right; left..].
    right; right. clear -H3. bytes.
Qed.

Lemma find_close_cons (c : ascii) (s : gostring) :
  find (c :: s) close_token =
  if (if Ascii.eqb c "}" then HasPrefix s (str "}") else false)
  then Some 0 else S <$> find s close_token.
Proof. reflexivity. Qed.

Lemma find_close_skip (w s : gostring) (n : nat) :
  Forall (λ c, Ascii.eqb c "}" = false) w →
  find s close_token = Some n → find (w ++ s) close_token = Some (length w + n).
Proof.
  intros Hw Hs. induction Hw as [|c w Hc _ IH]; [done|].
  rewrite <- app_comm_cons, find_close_cons, Hc, IH. done.
Qed.

Lemma inner_ok_app_white (k ws : gostring) :
  white ws → inner_ok k → inner_ok (k ++ ws).
Proof.
  rewrite !inner_ok_find. intros Hw%white_no_brace. rewrite <- app_assoc.
  induction k as [|c k IH]; intros Hk.
  - cbn [app]. rewrite (find_close_skip ws close_token 0); [|done..].
    f_equal. lia.
  - rewrite <- app_comm_cons, find_close_cons in Hk.
    rewrite <- app_comm_cons, find_close_cons.
    assert ((if Ascii.eqb c "}" then HasPrefix (k ++ ws ++ close_token) (str "}")
             else false) = false
            ∧ find (k ++ close_token) close_token = Some (length k)) as [-> Hk'].
    { destruct (Ascii.eqb c "}").
      - destruct k as [|d k]; [done|].
        change (HasPrefix ((d :: k) ++ close_token) (str "}"))
          with (if Ascii.eqb d "}" then true else false) in Hk.
        change (HasPrefix ((d :: k) ++ ws ++ close_token) (str "}"))
          with (if Ascii.eqb d "}" then true else false).
        destruct (Ascii.eqb d "}"); [done|].
        split; [done|].
        destruct (find ((d :: k) ++ close_token) close_token); [|done].
        by injection Hk as ->.
      - split; [done|].
        destruct (find (k ++ close_token) close_token); [|done].
        by injection Hk as ->. }
    rewrite (IH Hk'). by rewrite !length_app.
Qed.

Lemma inner_ok_white (ws1 k ws2 : gostring) :
  white ws1 → white ws2 → inner_ok k → inner_ok (ws1 ++ k ++ ws2).
Proof.
  intros H1%white_no_brace H2 Hk. apply inner_ok_find.
  pose proof (inner_ok_app_white _ _ H2 Hk) as H. apply inner_ok_find in H.
  rewrite <- app_assoc, (find_close_skip _ _ _ H1 H).
  by rewrite !length_app.
Qed.

End white_facts.

Lemma scan_pieces (ms : list (gostring * gostring)) (post : gostring)
    (ns : list Node) :
  pieces_ok ms → scan post ns →
  scan (pieces_source ms ++ post) (pieces_nodes ms ++ ns).
Proof.
  intros Hok Hs. induction Hok as [|[text inner] ms [Ht Hi] _ IH]; [done|].
  unfold pieces_source, pieces_nodes. rewrite !fmap_cons. cbn [concat fst snd].
  rewrite <- !app_assoc. cbn [app]. by apply scan_marker_app.
Qed.

Lemma ParseTemplate_pieces (ms : list (gostring * gostring))
    (text inner post : gostring) :
  pieces_ok ms → text_ok text → inner_ok inner →
  ∃ rest,
    ParseTemplate post = Ok (Some {| tree := rest |})
    ∧ ParseTemplate (pieces_source ms ++ text ++ marker inner ++ post)
      = Ok (Some {| tree := pieces_nodes ms
                             ++ TextNode text
                             :: VarNode (strings.TrimSpace inner) :: rest |}).
Proof.
  intros Hms Ht Hi. destruct (ParseTemplate_total post) as (rest & Hs & HP).
  exists rest. split; [done|].
  apply ParseTemplate_scan, scan_pieces; [done|]. by apply scan_marker_app.
Qed.

(** ** What a marker found by the scan looks like *)

Section split_facts.

Import strings.

(** The first instance of [p] in [x ++ r], when it lies within [x], is the
    first one in [x]. *)
Lemma find_app_inv (x r p : gostring) (i : nat) :
  find (x ++ r) p = Some i → i + length p ≤ length x → find x p = Some i.
Proof.
  intros (H1 & _ & H3)%find_Some Hi. apply find_first.
  - rewrite drop_app_le in H1 by lia.
    rewrite HasPrefix_app_l in H1; [done|]. rewrite length_drop. lia.
  - intros j Hj. specialize (H3 j Hj). rewrite drop_app_le in H3 by lia.
    rewrite HasPrefix_app_l in H3; [done|]. rewrite length_drop. lia.
Qed.

Lemma find_after_open_inv (s : gostring) (e : nat) :
  find (open_token ++ s) close_token = Some e →
  2 ≤ e ∧ find s close_token = Some (e - 2).
Proof.
  change (open_token ++ s) with ("{"%char :: "{"%char :: s).
  rewrite !find_close_cons. cbn [Ascii.eqb Bool.eqb].
  destruct (find s close_token) as [n|]; [|done].
  intros [= <-]. split; [lia|]. f_equal. lia.
Qed.

(** A marker the scan finds, cut out of the string. *)
Lemma marker_split (s : gostring) (a e : nat) :
  find s open_token = Some a → find (drop a s) close_token = Some e →
  s = take a s ++ marker (take (e - 2) (drop (a + 2) s)) ++ drop (a + e + 2) s
  ∧ length (take a s) = a
  ∧ text_ok (take a s)
  ∧ inner_ok (take (e - 2) (drop (a + 2) s)).
Proof.
  intros Ho Hc. destruct (marker_offsets _ _ _ Ho Hc) as [He Hl].
  pose proof Ho as (Ho1 & _ & _)%find_Some.
  pose proof Hc as (Hc1 & _ & _)%find_Some.
  apply HasPrefix_inv in Ho1. apply HasPrefix_inv in Hc1.
  change (length open_token) with 2 in Ho1.
  change (length close_token) with 2 in Hc1.
  rewrite !drop_drop in Ho1, Hc1. rewrite drop_drop in Hc1.
  assert (drop (a + 2) s
          = take (e - 2) (drop (a + 2) s) ++ drop (a + e) s) as Hi.
  { rewrite <- (take_drop (e - 2) (drop (a + 2) s)) at 1.
    rewrite drop_drop. do 2 f_equal. lia. }
  assert (s = take a s
              ++ marker (take (e - 2) (drop (a + 2) s)) ++ drop (a + e + 2) s)
    as Hs.
  { rewrite <- (take_drop a s) at 1. f_equal. unfold marker.
    rewrite <- !app_assoc. rewrite Ho1 at 1. f_equal.
    rewrite Hi at 1. f_equal. done. }
  assert (length (take a s) = a) as Hla by (rewrite length_take; lia).
  split; [done|]. split; [done|]. split.
  - apply text_ok_find. rewrite Hla.
    apply (find_app_inv _ (drop (a + 2) s)).
    + rewrite <- app_assoc, <- Ho1, take_drop. done.
    + rewrite length_app, Hla. simpl. lia.
  - apply inner_ok_find.
    assert (length (take (e - 2) (drop (a + 2) s)) = e - 2) as ->.
    { rewrite length_take, length_drop. lia. }
    rewrite Ho1 in Hc. apply find_after_open_inv in Hc as [_ Hc].
    apply (find_app_inv _ (drop (a + e + 2) s)).
    + rewrite <- app_assoc, <- Hc1, <- Hi. done.
    + rewrite length_app, length_take, length_drop. simpl. lia.
Qed.

End split_facts.

(** ** Well-formed templates *)

Section well_formed_facts.

Import strings.

Lemma well_formedb_sound (tmpl : gostring) :
  well_formedb tmpl = true → well_formed tmpl.
Proof.
  unfold well_formedb. rewrite forallb_forall. intros H i Hi.
  assert (i < length tmpl) as Hlt.
  { apply HasPrefix_length in Hi. rewrite length_drop in Hi. simpl in Hi. lia. }
  specialize (H i). rewrite Hi in H. simpl in H.
  apply bool_decide_eq_true in H as [n Hn]; [|apply in_seq; lia].
  exists (i + 2 + n). split; [lia|].
  apply find_Some in Hn as (Hn & _). by rewrite drop_drop in Hn.
Qed.

Lemma well_formed_closed (s : gostring) (a : nat) :
  well_formed s → find s open_token = Some a →
  is_Some (find (drop a s) close_token).
Proof.
  intros Hw (Ho & _)%find_Some. destruct (Hw a Ho) as (j & Hj & Hc).
  destruct (find_is_Some (drop a s) close_token (j - a)) as (e & _ & He).
  - rewrite drop_drop. by replace (a + (j - a)) with j by lia.
  - by eexists.
Qed.

Lemma well_formed_drop (s : gostring) (n : nat) :
  well_formed s → well_formed (drop n s).
Proof.
  intros Hw i Hi. rewrite drop_drop in Hi.
  destruct (Hw (n + i) Hi) as (j & Hj & Hc).
  exists (j - n). split; [lia|].
  rewrite drop_drop. by replace (n + (j - n)) with j by lia.
Qed.

(** A well-formed template is its markers, the text before each, and a
    tail; the tree has one [TextNode] for each text and for the tail. *)
Lemma scan_well_formed (s : gostring) (ns : list Node) :
  scan s ns → well_formed s →
  ∃ ms tail,
    pieces_ok ms ∧ find tail open_token = None
    ∧ s = pieces_source ms ++ tail
    ∧ ns = pieces_nodes ms ++ [TextNode tail].
Proof.
  induction 1 as [s Ho|s a Ho Hc|s a e ns Ho Hc H IH]; intros Hw.
  - exists [], s. split; [constructor|done].
  - destruct (well_formed_closed _ _ Hw Ho) as [e He]. congruence.
  - destruct IH as (ms & tail & Hms & Htail & Hs & Hns);
      [by apply well_formed_drop|].
    destruct (marker_split _ _ _ Ho Hc) as (Hsplit & _ & Ht & Hi).
    exists ((take a s, take (e - 2) (drop (a + 2) s)) :: ms), tail.
    split; [by constructor|]. split; [done|]. split.
    + rewrite Hsplit at 1. rewrite Hs.
      unfold pieces_source. rewrite fmap_cons. cbn [concat fst snd].
      by rewrite <- !app_assoc.
    + rewrite Hns. unfold pieces_nodes. by rewrite fmap_cons.
Qed.

Lemma output_length (c : Context) (ns : list Node) :
  (∀ k, k ∈ keys ns → is_Some (Data c !! k)) →
  ∃ vals,
    Forall2 (λ k val, Data c !! k = Some val) (keys ns) vals
    ∧ length (concat (node_output c <$> ns))
      = literal_length ns
        + sum_list_with (λ val, length (fmt.Sprintf_v val)) vals.
Proof.
  induction ns as [|[Content|Key] ns IH]; intros Hk.
  - by exists [].
  - destruct (IH Hk) as (vals & H1 & H2). exists vals. split; [done|].
    rewrite fmap_cons. cbn [concat node_output literal_length].
    rewrite length_app, H2. lia.
  - destruct IH as (vals & H1 & H2).
    { intros k Hin. apply Hk. cbn [keys]. by right. }
    destruct (Hk Key) as [val Hval]; [cbn [keys]; by left|].
    exists (val :: vals). split; [by constructor|].
    rewrite fmap_cons. cbn [concat node_output literal_length sum_list_with].
    rewrite Hval, length_app, H2. lia.
Qed.

End well_formed_facts.

(** ** Markers that are not closed *)

Section unmatched_facts.

Import strings.

Lemma open_split (s : gostring) (a : nat) :
  find s open_token = Some a → length (take a s) = a ∧ text_ok (take a s).
Proof.
  intros Ho. pose proof Ho as (Ho1 & Hl & _)%find_Some. simpl in Hl.
  assert (length (take a s) = a) as Hla by (rewrite length_take; lia).
  split; [done|]. apply text_ok_find. rewrite Hla.
  apply HasPrefix_inv in Ho1. change (length open_token) with 2 in Ho1.
  apply (find_app_inv _ (drop 2 (drop a s))).
  - by rewrite <- app_assoc, <- Ho1, take_drop.
  - rewrite length_app, Hla. simpl. lia.
Qed.

Lemma text_ok_no_open (text : gostring) :
  text_ok text → find text open_token = None.
Proof. by intros [H _]. Qed.

(** An open token that is not closed lies after every marker that is. *)
Lemma unmatched_after_marker (s : gostring) (a e i : nat) :
  find s open_token = Some a → find (drop a s) close_token = Some e →
  unmatched s i → a + e + 2 ≤ i ∧ unmatched (drop (a + e + 2) s) (i - (a + e + 2)).
Proof.
  intros Ho Hc [Hi1 Hi2].
  pose proof Hc as (Hc1 & _ & _)%find_Some. rewrite drop_drop in Hc1.
  assert (a + e < i) as Hlt.
  { destruct (decide (a + e < i)) as [|Hn]; [done|].
    pose proof (find_None _ _ (a + e - i) Hi2) as H.
    rewrite drop_drop in H. replace (i + (a + e - i)) with (a + e) in H by lia.
    congruence. }
  assert (i ≠ a + e + 1) as Hne.
  { intros ->. apply open_not_in_close in Hc1. rewrite drop_drop in Hc1.
    congruence. }
  split; [lia|]. unfold unmatched. rewrite drop_drop.
  by replace (a + e + 2 + (i - (a + e + 2))) with i by lia.
Qed.

(** Where the scan stops when some open token is not closed. *)
Lemma scan_unmatched (s : gostring) (ns : list Node) :
  scan s ns → (∃ i, unmatched s i) →
  ∃ q ms text,
    unmatched s q ∧ (∀ i, unmatched s i → q ≤ i)
    ∧ pieces_ok ms ∧ text_ok text
    ∧ take q s = pieces_source ms ++ text
    ∧ ns = pieces_nodes ms ++ [TextNode text].
Proof.
  induction 1 as [s Ho|s a Ho Hc|s a e ns Ho Hc H IH]; intros [i0 Hi0].
  - destruct Hi0 as [Hi0 _]. by rewrite (find_None _ _ i0 Ho) in Hi0.
  - pose proof Ho as (Ho1 & _ & Ho3)%find_Some.
    destruct (open_split _ _ Ho) as [Hla Ht].
    exists a, [], (take a s). split; [done|]. split.
    { intros i [Hi _]. destruct (decide (a ≤ i)) as [|Hn]; [done|].
      rewrite Ho3 in Hi; [done|lia]. }
    split; [constructor|]. done.
  - destruct (unmatched_after_marker _ _ _ _ Ho Hc Hi0) as [_ Hi0'].
    destruct IH as (q & ms & text & Hq & Hmin & Hms & Ht & Htake & Hns);
      [by eexists|].
    destruct (marker_split _ _ _ Ho Hc) as (Hsplit & Hla & Hta & Hin).
    exists (a + e + 2 + q),
      ((take a s, take (e - 2) (drop (a + 2) s)) :: ms), text.
    split; [|split; [|split; [|split; [|split]]]].
    + destruct Hq as [Hq1 Hq2]. unfold unmatched. by rewrite drop_drop in Hq1, Hq2.
    + intros i Hi.
      destruct (unmatched_after_marker _ _ _ _ Ho Hc Hi) as [Hge Hi'].
      specialize (Hmin _ Hi'). lia.
    + by constructor.
    + done.
    + destruct (marker_offsets _ _ _ Ho Hc) as [He Hl].
      rewrite Hsplit at 1. rewrite app_assoc.
      rewrite take_app_add'.
      * rewrite Htake. unfold pieces_source. rewrite fmap_cons.
        cbn [concat fst snd]. by rewrite <- !app_assoc.
      * rewrite length_app, Hla. unfold marker. rewrite !length_app.
        rewrite length_take, length_drop. simpl. lia.
    + rewrite Hns. unfold pieces_nodes. by rewrite fmap_cons.
Qed.

End unmatched_facts.

(** * The statements of the specification *)

(** C1. For a well-formed template and a context that holds every key the
    template refers to, [ParseTemplate] and then [Interpreter] give a
    string whose length is the total length of the literal text plus the
    lengths of the formatted values of the keys.  What the literal text and
    the keys are is read off the template: it is markers [ms], each closed
    by its own close token and with no open token in the text before it,
    and a tail with no open token; the literal text is the texts before
    the markers and the tail, the keys are the interiors of the markers,
    trimmed, and the tree holds just these, in order. *)
Theorem render_length (tmpl : gostring) (c : Context) :
  well_formed tmpl →
  (∀ k, k ∈ referenced_keys tmpl → is_Some (Data c !! k)) →
  ∃ (t : Template) (vals : list Value) (out : gostring),
    ParseTemplate tmpl = Ok (Some t)
    ∧ Forall2 (λ k val, Data c !! k = Some val) (keys (tree t)) vals
    ∧ Render tmpl (Some c) = Ok out
    ∧ length out
      = literal_length (tree t)
        + sum_list_with (λ val, length (fmt.Sprintf_v val)) vals
    ∧ ∃ ms tail,
        pieces_ok ms
        ∧ strings.find tail open_token = None
        ∧ tmpl = pieces_source ms ++ tail
        ∧ tree t = pieces_nodes ms ++ [TextNode tail]
        ∧ keys (tree t) = strings.TrimSpace <$> ms.*2
        ∧ literal_length (tree t) = sum_list_with length ms.*1 + length tail
        ∧ length out
          = sum_list_with length ms.*1 + length tail
            + sum_list_with (λ val, length (fmt.Sprintf_v val)) vals.
Proof.
  intros Hw Hk. destruct (ParseTemplate_total tmpl) as (ns & Hs & HP).
  unfold referenced_keys in Hk. rewrite HP in Hk. cbn [tree] in Hk.
  destruct (output_length c ns Hk) as (vals & Hv & Hl).
  destruct (scan_well_formed _ _ Hs Hw) as (ms & tail & Hms & Ht & Hsrc & Hns).
  assert (keys ns = strings.TrimSpace <$> ms.*2) as Hkeys.
  { rewrite Hns. clear. induction ms as [|[text inner] ms IH]; [done|].
    unfold pieces_nodes in *. rewrite !fmap_cons.
    cbn [concat app keys fst snd]. by rewrite IH. }
  assert (literal_length ns = sum_list_with length ms.*1 + length tail) as Hlit.
  { rewrite Hns. clear. induction ms as [|[text inner] ms IH]; [cbn; lia|].
    unfold pieces_nodes in *. rewrite !fmap_cons.
    cbn [concat app literal_length sum_list_with fst snd]. rewrite IH. lia. }
  exists {| tree := ns |}, vals, (concat (node_output c <$> ns)).
  split; [done|]. split; [done|]. split.
  - unfold Render. rewrite HP. cbn [bind]. by rewrite Template_Interpreter_eq.
  - split; [done|]. exists ms, tail. cbn [tree].
    split; [done|]. split; [done|]. split; [done|]. split; [done|].
    split; [done|]. split; [done|]. by rewrite Hl, Hlit.
Qed.

Lemma render_length_witness :
  well_formed main_tmpl
  ∧ (∀ k, k ∈ referenced_keys main_tmpl → is_Some (Data main_ctx !! k))
  ∧ ∃ (t : Template) (vals : list Value) (out : gostring),
      ParseTemplate main_tmpl = Ok (Some t)
      ∧ Forall2 (λ k val, Data main_ctx !! k = Some val) (keys (tree t)) vals
      ∧ Render main_tmpl (Some main_ctx) = Ok out
      ∧ length out
        = literal_length (tree t)
          + sum_list_with (λ val, length (fmt.Sprintf_v val)) vals
      ∧ ∃ ms tail,
          pieces_ok ms
          ∧ strings.find tail open_token = None
          ∧ main_tmpl = pieces_source ms ++ tail
          ∧ tree t = pieces_nodes ms ++ [TextNode tail]
          ∧ keys (tree t) = strings.TrimSpace <$> ms.*2
          ∧ literal_length (tree t) = sum_list_with length ms.*1 + length tail
          ∧ length out
            = sum_list_with length ms.*1 + length tail
              + sum_list_with (λ val, length (fmt.Sprintf_v val)) vals.
Proof.
  assert (well_formed main_tmpl) as Hw.
  { apply well_formedb_sound. vm_compute. reflexivity. }
  assert (∀ k, k ∈ referenced_keys main_tmpl → is_Some (Data main_ctx !! k))
    as Hk.
  { intros k Hin. vm_compute in Hin.
    apply elem_of_cons in Hin as [->|Hin]; [by eexists|].
    apply elem_of_cons in Hin as [->|Hin]; [by eexists|].
    by apply elem_of_nil in Hin. }
  split; [exact Hw|]. split; [exact Hk|].
  exact (render_length main_tmpl main_ctx Hw Hk).
Defined.

(** C2. The program's own example: the template
    "Hello, {{ Name }}! You are {{Age}} years old.", rendered with the
    context that maps Name to the string fengfeng and Age to the integer 21,
    is exactly "Hello, fengfeng! You are 21 years old."; the integer is
    printed in base 10. *)
Theorem main_example :
  Render main_tmpl (Some main_ctx)
  = Ok (str "Hello, fengfeng! You are 21 years old.").
Proof.
  unfold Render. rewrite parse_main. cbn [bind].
  rewrite Template_Interpreter_eq. reflexivity.
Qed.

(** C3. A template in which the open token does not occur is parsed into
    exactly one [TextNode], which holds the whole input, and is rendered
    unchanged whatever the context is (a nil context included).  The empty
    template is one of them: its tree is the single empty [TextNode]. *)
Theorem no_marker_one_literal (tmpl : gostring) :
  strings.Index tmpl open_token = (-1)%Z →
  ParseTemplate tmpl = Ok (Some {| tree := [TextNode tmpl] |})
  ∧ ∀ ctx : ptr Context, Render tmpl ctx = Ok tmpl.
Proof.
  intros H.
  assert (strings.find tmpl open_token = None) as Hf.
  { unfold strings.Index in H. destruct (strings.find tmpl open_token); [lia|done]. }
  assert (ParseTemplate tmpl = Ok (Some {| tree := [TextNode tmpl] |})) as HP.
  { apply ParseTemplate_scan. by apply scan_tail. }
  split; [done|]. intros ctx. unfold Render. by rewrite HP.
Qed.

Lemma no_marker_one_literal_witness :
  strings.Index (str "") open_token = (-1)%Z
  ∧ ParseTemplate (str "") = Ok (Some {| tree := [TextNode (str "")] |})
  ∧ ∀ ctx : ptr Context, Render (str "") ctx = Ok (str "").
Proof.
  split; [reflexivity|]. apply (no_marker_one_literal (str "")). reflexivity.
Defined.

(** C4. A [VarNode] whose key the context does not hold is interpreted as
    the empty string, without a panic: in a tree it adds nothing to the
    output, and the template "{{x}}" rendered with the empty context is
    the empty string. *)
Theorem absent_key_is_empty
  (Key : gostring) (c : Context) (before after : list Node) :
  Data c !! Key = None →
  VarNode_Interpreter Key (Some c) = Ok []
  ∧ Template_Interpreter (Some {| tree := before ++ VarNode Key :: after |}) (Some c)
    = Template_Interpreter (Some {| tree := before ++ after |}) (Some c)
  ∧ Render (str "{{x}}") (Some {| Data := ∅ |}) = Ok [].
Proof.
  intros H. split; [|split].
  - unfold VarNode_Interpreter. cbn [deref bind]. by rewrite H.
  - rewrite !Template_Interpreter_eq. cbn [tree].
    rewrite !fmap_app, !concat_app, fmap_cons. cbn [concat node_output].
    by rewrite H.
  - reflexivity.
Qed.

Lemma absent_key_is_empty_witness :
  Data {| Data := ∅ |} !! str "x" = None
  ∧ VarNode_Interpreter (str "x") (Some {| Data := ∅ |}) = Ok []
  ∧ Template_Interpreter
      (Some {| tree := [TextNode (str "a")] ++ VarNode (str "x") :: [TextNode (str "b")] |})
      (Some {| Data := ∅ |})
    = Template_Interpreter
        (Some {| tree := [TextNode (str "a")] ++ [TextNode (str "b")] |})
        (Some {| Data := ∅ |})
  ∧ Render (str "{{x}}") (Some {| Data := ∅ |}) = Ok [].
Proof.
  assert (Data {| Data := ∅ |} !! str "x" = None) as H by reflexivity.
  split; [exact H|].
  apply (absent_key_is_empty (str "x") {| Data := ∅ |}
           [TextNode (str "a")] [TextNode (str "b")] H).
Defined.

(** C5. When some open token of the template has no close token after it,
    [ParseTemplate] still returns a template, without a panic.  The scan
    stops at the first such open token, at offset [q]: the last node of
    the tree is the [TextNode] of the text [text] right before it, the
    nodes before are those of the markers [ms] read up to there, and no
    node is made of anything from [q] on: the template cut at [q] has the
    same tree. *)
Theorem unterminated_marker (tmpl : gostring) (i : nat) :
  unmatched tmpl i →
  ∃ (q : nat) (ms : list (gostring * gostring)) (text : gostring),
    unmatched tmpl q ∧ (∀ j, unmatched tmpl j → q ≤ j)
    ∧ take q tmpl = pieces_source ms ++ text
    ∧ ParseTemplate tmpl
      = Ok (Some {| tree := pieces_nodes ms ++ [TextNode text] |})
    ∧ ParseTemplate (take q tmpl) = ParseTemplate tmpl.
Proof.
  intros Hi. destruct (ParseTemplate_total tmpl) as (ns & Hs & HP).
  destruct (scan_unmatched _ _ Hs) as (q & ms & text & Hq & Hmin & Hms & Ht & Htake & ->);
    [by exists i|].
  exists q, ms, text. split; [done|]. split; [done|]. split; [done|].
  split; [done|]. rewrite HP, Htake.
  apply ParseTemplate_scan, scan_pieces; [done|].
  by apply scan_tail, text_ok_no_open.
Qed.

Lemma unterminated_marker_witness :
  unmatched (str "Hi {{a}}, {{b") 10
  ∧ ∃ (q : nat) (ms : list (gostring * gostring)) (text : gostring),
      unmatched (str "Hi {{a}}, {{b") q
      ∧ (∀ j, unmatched (str "Hi {{a}}, {{b") j → q ≤ j)
      ∧ take q (str "Hi {{a}}, {{b") = pieces_source ms ++ text
      ∧ ParseTemplate (str "Hi {{a}}, {{b")
        = Ok (Some {| tree := pieces_nodes ms ++ [TextNode text] |})
      ∧ ParseTemplate (take q (str "Hi {{a}}, {{b"))
        = ParseTemplate (str "Hi {{a}}, {{b").
Proof.
  assert (unmatched (str "Hi {{a}}, {{b") 10) as H by (split; reflexivity).
  split; [exact H|]. exact (unterminated_marker _ _ H).
Defined.

(** C6, as it is worded, fails for a key that ends in a closing brace: in
    "{{ a} }}" the marker is closed after the blank and the key is "a}",
    in "{{a}}}" it is closed by the first two braces, the key is "a" and
    the third brace is text. *)
Lemma marker_whitespace_counterexample :
  let c := {| Data := {[ str "a}" := VString (str "X") ]} |} in
  Render (marker (str " " ++ str "a}" ++ str " ")) (Some c) = Ok (str "X")
  ∧ Render (marker (str "a}")) (Some c) = Ok (str "}")
  ∧ Render (marker (str " " ++ str "a}" ++ str " ")) (Some c)
    ≠ Render (marker (str "a}")) (Some c).
Proof.
  assert (ParseTemplate (marker (str " " ++ str "a}" ++ str " "))
          = Ok (Some {| tree := [TextNode []; VarNode (str "a}"); TextNode []] |}))
    as H1 by (vm_compute; reflexivity).
  assert (ParseTemplate (marker (str "a}"))
          = Ok (Some {| tree := [TextNode []; VarNode (str "a"); TextNode (str "}")] |}))
    as H2 by (vm_compute; reflexivity).
  cbn zeta. unfold Render. rewrite H1, H2. cbn [bind].
  rewrite !Template_Interpreter_eq. cbn [tree].
  split; [reflexivity|]. split; [reflexivity|]. discriminate.
Qed.

(** C6, amended.  Take a key in which no close token starts (it has no two
    closing braces in a row and does not end in one), white space [ws1]
    and [ws2], and a template that reaches a marker of this key after the
    markers [ms] and the text [text].  The [VarNode] of the marker
    "{{" ++ ws1 ++ key ++ ws2 ++ "}}" holds the interior trimmed, which is
    the key trimmed; the tree is the one of the same template with the
    marker "{{" ++ key ++ "}}", and so is the output, whatever the context
    is. *)
Theorem marker_whitespace
    (ms : list (gostring * gostring)) (text ws1 key ws2 post : gostring) :
  pieces_ok ms → text_ok text → white ws1 → white ws2 → inner_ok key →
  let spaced := pieces_source ms ++ text ++ marker (ws1 ++ key ++ ws2) ++ post in
  let plain := pieces_source ms ++ text ++ marker key ++ post in
  (∃ rest,
     ParseTemplate spaced
     = Ok (Some {| tree := pieces_nodes ms
                            ++ TextNode text
                            :: VarNode (strings.TrimSpace (ws1 ++ key ++ ws2))
                            :: rest |}))
  ∧ strings.TrimSpace (ws1 ++ key ++ ws2) = strings.TrimSpace key
  ∧ ParseTemplate spaced = ParseTemplate plain
  ∧ ∀ ctx : ptr Context, Render spaced ctx = Render plain ctx.
Proof.
  intros Hms Ht H1 H2 Hk spaced plain.
  pose proof (inner_ok_white _ _ _ H1 H2 Hk) as Hi.
  destruct (ParseTemplate_pieces ms text _ post Hms Ht Hi) as (rest & HP & Hs).
  destruct (ParseTemplate_pieces ms text _ post Hms Ht Hk) as (rest' & HP' & Hp).
  assert (rest' = rest) as -> by congruence.
  pose proof (TrimSpace_white _ key _ H1 H2) as HT.
  assert (ParseTemplate spaced = ParseTemplate plain) as E.
  { unfold spaced, plain. by rewrite Hs, Hp, HT. }
  split; [by eexists|]. split; [done|]. split; [done|].
  intros ctx. unfold Render. by rewrite E.
Qed.

Lemma marker_whitespace_witness :
  text_ok (str "Hi ") ∧ white (str " ") ∧ inner_ok (str "name")
  ∧ ∀ ctx : ptr Context,
      Render (str "Hi {{ name }}!") ctx = Render (str "Hi {{name}}!") ctx.
Proof.
  assert (text_ok (str "Hi ")) as Ht by (split; [reflexivity|discriminate]).
  assert (white (str " ")) as Hw by (apply white_1; [reflexivity|constructor]).
  assert (inner_ok (str "name")) as Hk by (split; [reflexivity|discriminate]).
  split; [exact Ht|]. split; [exact Hw|]. split; [exact Hk|].
  apply (marker_whitespace [] (str "Hi ") (str " ") (str "name") (str " ")
           (str "!") (List.Forall_nil _) Ht Hw Hw Hk).
Defined.

(** C7, as it is worded, fails for a context that has an entry under the
    empty key: the [VarNode] of "{{}}" is then interpreted as that entry.
    Nor is every "{{}}" in a template a marker: in "{{{}}" the marker
    starts at the first brace and its key is "{". *)
Lemma empty_marker_counterexample :
  let c := {| Data := {[ str "" := VString (str "boo") ]} |} in
  ParseTemplate (str "{{}}")
  = Ok (Some {| tree := [TextNode []; VarNode []; TextNode []] |})
  ∧ VarNode_Interpreter [] (Some c) = Ok (str "boo")
  ∧ Render (str "{{}}") (Some c) = Ok (str "boo")
  ∧ VarNode_Interpreter [] (Some c) ≠ Ok []
  ∧ ParseTemplate (str "{{{}}")
    = Ok (Some {| tree := [TextNode []; VarNode (str "{"); TextNode []] |}).
Proof.
  assert (ParseTemplate (str "{{}}")
          = Ok (Some {| tree := [TextNode []; VarNode []; TextNode []] |})) as H
    by (vm_compute; reflexivity).
  cbn zeta. unfold Render. rewrite H. cbn [bind].
  rewrite Template_Interpreter_eq.
  split; [done|]. split; [reflexivity|]. split; [reflexivity|].
  split; [discriminate|]. vm_compute. reflexivity.
Qed.

(** C7, amended.  In a template that reaches the empty marker "{{}}" after
    the markers [ms] and the text [text], the marker is parsed into a
    [VarNode] with the empty key; with a context that has no entry under
    the empty key the node is interpreted as the empty string and adds
    nothing to the output. *)
Theorem empty_marker
    (ms : list (gostring * gostring)) (text post : gostring) (c : Context) :
  pieces_ok ms → text_ok text → Data c !! [] = None →
  ∃ rest,
    ParseTemplate post = Ok (Some {| tree := rest |})
    ∧ ParseTemplate (pieces_source ms ++ text ++ str "{{}}" ++ post)
      = Ok (Some {| tree := pieces_nodes ms
                             ++ TextNode text :: VarNode [] :: rest |})
    ∧ VarNode_Interpreter [] (Some c) = Ok []
    ∧ Template_Interpreter
        (Some {| tree := pieces_nodes ms ++ TextNode text :: VarNode [] :: rest |})
        (Some c)
      = Template_Interpreter
          (Some {| tree := pieces_nodes ms ++ TextNode text :: rest |}) (Some c).
Proof.
  intros Hms Ht Hc.
  destruct (ParseTemplate_pieces ms text [] post Hms Ht) as (rest & HP & Hs);
    [done|].
  exists rest. split; [done|]. split; [done|]. split.
  - unfold VarNode_Interpreter. cbn [deref bind]. by rewrite Hc.
  - rewrite !Template_Interpreter_eq. cbn [tree].
    rewrite !fmap_app, !concat_app, !fmap_cons. cbn [concat node_output].
    by rewrite Hc.
Qed.

Lemma empty_marker_witness :
  text_ok (str "Hi ") ∧ Data {| Data := ∅ |} !! str "" = None
  ∧ ∃ rest,
      ParseTemplate (str "!") = Ok (Some {| tree := rest |})
      ∧ ParseTemplate (str "Hi " ++ str "{{}}" ++ str "!")
        = Ok (Some {| tree := TextNode (str "Hi ") :: VarNode [] :: rest |})
      ∧ VarNode_Interpreter [] (Some {| Data := ∅ |}) = Ok []
      ∧ Template_Interpreter
          (Some {| tree := TextNode (str "Hi ") :: VarNode [] :: rest |})
          (Some {| Data := ∅ |})
        = Template_Interpreter
            (Some {| tree := TextNode (str "Hi ") :: rest |})
            (Some {| Data := ∅ |}).
Proof.
  assert (text_ok (str "Hi ")) as Ht by (split; [reflexivity|discriminate]).
  assert (Data {| Data := ∅ |} !! str "" = None) as Hc by reflexivity.
  split; [exact Ht|]. split; [exact Hc|].
  apply (empty_marker [] (str "Hi ") (str "!") {| Data := ∅ |}
           (List.Forall_nil _) Ht Hc).
Defined.

(** C8. [ParseTemplate] terminates.  One run of the loop body from a
    cursor inside the template either leaves the loop or moves the cursor
    forward, to the byte after a close token and not beyond the end; so the
    loop runs a number [n] of times that the length of the input bounds (a
    marker has at least four bytes): with [n] iterations or more it returns
    the template, and with fewer it is still running. *)
Theorem ParseTemplate_terminates (tmpl : gostring) :
  (∀ (ns : list Node) (i : nat) (st' : state),
     i ≤ length tmpl →
     loop_body tmpl {| template := Some {| tree := ns |}; index := Z.of_nat i |}
     = Ok (Continue st') →
     (Z.of_nat i + 4 ≤ index st' ≤ len tmpl)%Z
     ∧ strings.HasPrefix (drop (Z.to_nat (index st') - 2) tmpl) close_token = true)
  ∧ ∃ (n : nat) (t : Template),
      1 ≤ n ≤ length tmpl / 4 + 1
      ∧ (∀ fuel, fuel < n → ParseTemplate_fuel fuel tmpl = OutOfFuel)
      ∧ (∀ fuel, n ≤ fuel → ParseTemplate_fuel fuel tmpl = Ok (Some t))
      ∧ ParseTemplate tmpl = Ok (Some t).
Proof.
  split.
  - intros ns i st' Hi. rewrite loop_body_eq by done.
    destruct (strings.find (drop i tmpl) open_token) as [a|] eqn:Ho; [|done].
    cbn zeta.
    destruct (strings.find (drop a (drop i tmpl)) close_token) as [e|] eqn:Hc;
      [|done].
    intros [= <-]. cbn [index].
    destruct (marker_offsets _ _ _ Ho Hc) as [He Hl].
    rewrite length_drop in Hl. split; [unfold len; lia|].
    apply find_Some in Hc as (Hc & _). rewrite !drop_drop in Hc.
    rewrite Nat2Z.id. by replace (i + a + e + 2 - 2) with (i + (a + e)) by lia.
  - destruct (ParseTemplate_total tmpl) as (ns & Hs & HP).
    exists (S (count_vars ns)), {| tree := ns |}.
    pose proof (scan_count_vars _ _ Hs) as Hb.
    split; [|split; [|split]]; [| | |done].
    + split; [lia|].
      assert (count_vars ns ≤ length tmpl / 4); [|lia].
      apply Nat.div_le_lower_bound; lia.
    + intros fuel Hf. rewrite (ParseTemplate_fuel_scan _ ns) by done.
      case_decide; [done|lia].
    + intros fuel Hf. rewrite (ParseTemplate_fuel_scan _ ns) by done.
      case_decide; [lia|done].
Qed.

Lemma ParseTemplate_terminates_witness :
  ∃ (n : nat) (t : Template),
    1 ≤ n ≤ length main_tmpl / 4 + 1
    ∧ ParseTemplate_fuel (n - 1) main_tmpl = OutOfFuel
    ∧ ParseTemplate_fuel n main_tmpl = Ok (Some t).
Proof.
  destruct (ParseTemplate_terminates main_tmpl)
    as [_ (n & t & Hn & Hlt & Hge & _)].
  exists n, t. split; [exact Hn|]. split; [apply Hlt; lia|apply Hge; lia].
Defined.

(** C9. The tree [ParseTemplate] returns is not empty, starts with a
    [TextNode], alternates [TextNode]s and [VarNode]s, and ends with a
    [TextNode]: the tail of the template when the scan ends there, and the
    text before the open token when the scan ends on a marker that is not
    closed. *)
Theorem tree_alternates (tmpl : gostring) :
  ∃ t : Template,
    ParseTemplate tmpl = Ok (Some t)
    ∧ tree t ≠ []
    ∧ is_text <$> head (tree t) = Some true
    ∧ alternates true (tree t) = true
    ∧ is_text <$> last (tree t) = Some true.
Proof.
  destruct (ParseTemplate_total tmpl) as (ns & Hs & HP).
  exists {| tree := ns |}. split; [done|]. cbn [tree].
  destruct (scan_shape _ _ Hs) as (H1 & H2 & H3).
  split; [|done]. by destruct ns.
Qed.

(** C10. [ParseTemplate] never panics and returns a pointer that is not
    nil.  A slice out of bounds is a panic of the model, so every slice the
    parser takes is within bounds: no run of the loop body from a cursor
    inside the template panics.  For the slice of the key this is because
    a close token found from the start of an open token is at offset 2 at
    least. *)
Theorem ParseTemplate_safe (tmpl : gostring) :
  (∃ t : Template, ParseTemplate tmpl = Ok (Some t))
  ∧ (∀ (ns : list Node) (i : nat),
       i ≤ length tmpl →
       ∃ c, loop_body tmpl
              {| template := Some {| tree := ns |}; index := Z.of_nat i |}
            = Ok c)
  ∧ (∀ s : gostring,
       strings.HasPrefix s open_token = true →
       strings.Index s close_token ≠ (-1)%Z →
       (2 ≤ strings.Index s close_token)%Z).
Proof.
  split; [|split].
  - destruct (ParseTemplate_total tmpl) as (ns & _ & HP). by eexists.
  - intros ns i Hi. rewrite loop_body_eq by done. by eexists.
  - intros s Ho. unfold strings.Index.
    destruct (strings.find s close_token) as [e|] eqn:Hc; [|done].
    intros _. pose proof (close_after_open _ _ Ho Hc). lia.
Qed.

Lemma ParseTemplate_safe_witness :
  strings.HasPrefix (str "{{x}}") open_token = true
  ∧ strings.Index (str "{{x}}") close_token ≠ (-1)%Z
  ∧ (2 ≤ strings.Index (str "{{x}}") close_token)%Z.
Proof.
  assert (strings.HasPrefix (str "{{x}}") open_token = true) as Ho
    by reflexivity.
  assert (strings.Index (str "{{x}}") close_token ≠ (-1)%Z) as Hc
    by discriminate.
  split; [exact Ho|]. split; [exact Hc|].
  destruct (ParseTemplate_safe (str "{{x}}")) as (_ & _ & H).
  exact (H (str "{{x}}") Ho Hc).
Defined.

(** * Further properties of the interpreter *)

(** ** Trimming *)

Section trim_facts.

Variable p1 : ascii → bool.
Variable p2 : ascii → ascii → bool.
Variable p3 : ascii → ascii → ascii → bool.

Local Abbreviation trim := (trim_with p1 p2 p3).
Local Abbreviation starts := (starts_with p1 p2 p3).

(** Induction on what is left after a rune of one, two or three bytes. *)
Lemma rune_ind (P : gostring → Prop) :
  (∀ s, (∀ s', length s' < length s → P s') → P s) → ∀ s, P s.
Proof.
  intros H s. remember (length s) as n eqn:Hn. revert s Hn.
  induction (lt_wf n) as [n _ IH]. intros s ->.
  apply H. intros s' Hs'. by eapply IH.
Qed.

Lemma trim_with_eq (s : gostring) :
  trim s =
  match s with
  | [] => []
  | c1 :: s1 =>
    if p1 c1 then trim s1
    else match s1 with
         | [] => s
         | c2 :: s2 =>
           if p2 c1 c2 then trim s2
           else match s2 with
                | [] => s
                | c3 :: s3 => if p3 c1 c2 c3 then trim s3 else s
                end
         end
  end.
Proof. by destruct s. Qed.

Lemma trim_with_suffix (s : gostring) : trim s `suffix_of` s.
Proof.
  induction s as [s IH] using rune_ind. rewrite trim_with_eq.
  destruct s as [|c1 s1]; [done|].
  destruct (p1 c1).
  { apply suffix_cons_r, IH. simpl. lia. }
  destruct s1 as [|c2 s2]; [done|].
  destruct (p2 c1 c2).
  { do 2 apply suffix_cons_r. apply IH. simpl. lia. }
  destruct s2 as [|c3 s3]; [done|].
  destruct (p3 c1 c2 c3); [|done].
  do 3 apply suffix_cons_r. apply IH. simpl. lia.
Qed.

Lemma trim_with_starts (s : gostring) : starts (trim s) = false.
Proof.
  induction s as [s IH] using rune_ind. rewrite trim_with_eq.
  destruct s as [|c1 s1]; [done|].
  destruct (p1 c1) eqn:E1.
  { apply IH. simpl. lia. }
  destruct s1 as [|c2 s2]; [by cbn; rewrite E1|].
  destruct (p2 c1 c2) eqn:E2.
  { apply IH. simpl. lia. }
  destruct s2 as [|c3 s3]; [by cbn; rewrite E1, E2|].
  destruct (p3 c1 c2 c3) eqn:E3; [apply IH; simpl; lia|].
  cbn. by rewrite E1, E2, E3.
Qed.

Lemma trim_with_stable (s : gostring) : starts s = false → trim s = s.
Proof.
  rewrite trim_with_eq. destruct s as [|c1 [|c2 [|c3 s3]]]; cbn; [done|..].
  - by destruct (p1 c1).
  - destruct (p1 c1); [done|]. by destruct (p2 c1 c2).
  - destruct (p1 c1); [done|]. destruct (p2 c1 c2); [done|].
    by destruct (p3 c1 c2 c3).
Qed.

Lemma starts_with_app (s w : gostring) :
  starts s = true → starts (s ++ w) = true.
Proof.
  destruct s as [|c1 [|c2 [|c3 s3]]]; cbn; [done|..].
  - rewrite orb_false_r. by intros ->.
  - destruct (p1 c1); [done|]. cbn. rewrite orb_false_r. by intros ->.
  - done.
Qed.

End trim_facts.

Section TrimSpace_facts.

Import strings.

Local Abbreviation trimL := (trim_with isSpace1 isSpace2 isSpace3).
Local Abbreviation trimR :=
  (trim_with isSpace1 (λ c1 c2, isSpace2 c2 c1) (λ c1 c2 c3, isSpace3 c3 c2 c1)).
Local Abbreviation startsL := (starts_with isSpace1 isSpace2 isSpace3).

Lemma TrimLeftSpace_trim (s : gostring) : TrimLeftSpace s = trimL s.
Proof.
  induction s as [s IH] using rune_ind. rewrite trim_with_eq.
  destruct s as [|c1 s1]; [done|]. cbn [TrimLeftSpace].
  rewrite (IH s1) by (simpl; lia).
  destruct s1 as [|c2 s2]; [done|]. rewrite (IH s2) by (simpl; lia).
  destruct s2 as [|c3 s3]; [done|]. by rewrite (IH s3) by (simpl; lia).
Qed.

Lemma TrimLeftSpace_rev_trim (r : gostring) : TrimLeftSpace_rev r = trimR r.
Proof.
  induction r as [r IH] using rune_ind. rewrite trim_with_eq.
  destruct r as [|c1 r1]; [done|]. cbn [TrimLeftSpace_rev].
  rewrite (IH r1) by (simpl; lia).
  destruct r1 as [|c2 r2]; [done|]. rewrite (IH r2) by (simpl; lia).
  destruct r2 as [|c3 r3]; [done|]. by rewrite (IH r3) by (simpl; lia).
Qed.

Lemma TrimSpace_eq (s : gostring) : TrimSpace s = rev (trimR (rev (trimL s))).
Proof.
  unfold TrimSpace, TrimRightSpace.
  by rewrite TrimLeftSpace_rev_trim, TrimLeftSpace_trim.
Qed.

(** [TrimSpace] cuts a piece out of the string, and adds nothing. *)
Lemma TrimSpace_infix (s : gostring) : ∃ l r, s = l ++ TrimSpace s ++ r.
Proof.
  rewrite TrimSpace_eq.
  destruct (trim_with_suffix isSpace1 isSpace2 isSpace3 s) as [l Hl].
  destruct (trim_with_suffix isSpace1 (λ c1 c2, isSpace2 c2 c1)
              (λ c1 c2 c3, isSpace3 c3 c2 c1) (rev (trimL s))) as [r Hr].
  exists l, (rev r). rewrite <- rev_app_distr, <- Hr, rev_involutive. done.
Qed.

Lemma TrimSpace_length (s : gostring) : length (TrimSpace s) ≤ length s.
Proof.
  destruct (TrimSpace_infix s) as (l & r & H).
  rewrite H at 2. rewrite !length_app. lia.
Qed.

(** What [TrimSpace] leaves has no white space left to remove. *)
Lemma TrimSpace_idem (s : gostring) : TrimSpace (TrimSpace s) = TrimSpace s.
Proof.
  rewrite !TrimSpace_eq.
  set (y := trimL s). set (z := rev (trimR (rev y))).
  destruct (trim_with_suffix isSpace1 (λ c1 c2, isSpace2 c2 c1)
              (λ c1 c2 c3, isSpace3 c3 c2 c1) (rev y)) as [w Hw].
  assert (y = z ++ rev w) as Hy.
  { unfold z. rewrite <- rev_app_distr, <- Hw, rev_involutive. done. }
  assert (trimL z = z) as ->.
  { apply trim_with_stable. destruct (startsL z) eqn:E; [|done].
    apply (starts_with_app _ _ _ _ (rev w)) in E. rewrite <- Hy in E.
    unfold y in E. by rewrite trim_with_starts in E. }
  unfold z at 1. rewrite rev_involutive.
  rewrite trim_with_stable; [done|]. apply trim_with_starts.
Qed.

End TrimSpace_facts.

(** ** The tree and the template *)

Section tree_facts.

Import strings.

(** A string that has no instance of [p] has none in any piece of it. *)
Lemma find_None_infix (l m r p : gostring) :
  find (l ++ m ++ r) p = None → find m p = None.
Proof.
  intros H. destruct (find m p) as [i|] eqn:E; [|done].
  apply (find_app_l _ r) in E. apply find_Some in E as (E & _).
  pose proof (find_None _ _ (length l + i) H) as Hn.
  rewrite <- drop_drop, drop_app_length in Hn. congruence.
Qed.

(** Text with no open token inside or at its end, before a string with no
    open token: none in the two together. *)
Lemma text_ok_app (text s : gostring) :
  text_ok text → find s open_token = None → find (text ++ s) open_token = None.
Proof.
  intros [Ht Hl] Hs. induction text as [|c text IH]; [done|].
  rewrite <- app_comm_cons.
  change open_token with ["{"%char; "{"%char] in *.
  rewrite find_pair_cons in Ht |- *.
  destruct text as [|d text].
  - cbn [app]. destruct (Ascii.eqb_spec c "{") as [->|_]; [done|]. by rewrite Hs.
  - change (HasPrefix ((d :: text) ++ s) ["{"%char])
      with (if Ascii.eqb d "{" then true else false).
    change (HasPrefix (d :: text) ["{"%char])
      with (if Ascii.eqb d "{" then true else false) in Ht.
    destruct (if Ascii.eqb c "{" then if Ascii.eqb d "{" then true else false
              else false); [done|].
    destruct (find (d :: text) ["{"%char; "{"%char]) eqn:E; [done|].
    rewrite IH; [done..|]. by rewrite last_cons_cons in Hl.
Qed.

(** Every template is markers, each with the text before it, then a tail,
    then what the scan drops: nothing, or an open token that is not
    closed. *)
Lemma scan_decompose (s : gostring) (ns : list Node) :
  scan s ns →
  ∃ ms tail dropped,
    pieces_ok ms
    ∧ s = pieces_source ms ++ tail ++ dropped
    ∧ ns = pieces_nodes ms ++ [TextNode tail]
    ∧ find tail open_token = None
    ∧ (dropped = []
       ∨ (text_ok tail ∧ HasPrefix dropped open_token = true
          ∧ find dropped close_token = None)).
Proof.
  induction 1 as [s Ho|s a Ho Hc|s a e ns Ho Hc H IH].
  - exists [], s, []. split; [constructor|]. rewrite app_nil_r. by auto.
  - destruct (open_split _ _ Ho) as [_ Ht].
    pose proof Ho as (Ho1 & _)%find_Some.
    exists [], (take a s), (drop a s). split; [constructor|].
    cbn [pieces_source pieces_nodes fmap list_fmap concat app].
    rewrite take_drop. split; [done|]. split; [done|].
    split; [by apply text_ok_no_open|]. right. done.
  - destruct IH as (ms & tail & dropped & Hms & Hs & Hns & Htail & Hd).
    destruct (marker_split _ _ _ Ho Hc) as (Hsplit & _ & Ht & Hi).
    exists ((take a s, take (e - 2) (drop (a + 2) s)) :: ms), tail, dropped.
    split; [by constructor|]. split; [|split; [|done]].
    + rewrite Hsplit at 1. rewrite Hs.
      unfold pieces_source. rewrite fmap_cons. cbn [concat fst snd].
      by rewrite <- !app_assoc.
    + rewrite Hns. unfold pieces_nodes. by rewrite fmap_cons.
Qed.

Lemma texts_pieces (ms : list (gostring * gostring)) (ns : list Node) :
  texts (pieces_nodes ms ++ ns) = ms.*1 ++ texts ns.
Proof.
  induction ms as [|[text inner] ms IH]; [done|].
  unfold pieces_nodes. rewrite !fmap_cons. cbn [concat app texts fst snd].
  f_equal. apply IH.
Qed.

Lemma keys_pieces (ms : list (gostring * gostring)) (ns : list Node) :
  keys (pieces_nodes ms ++ ns) = (TrimSpace <$> ms.*2) ++ keys ns.
Proof.
  induction ms as [|[text inner] ms IH]; [done|].
  unfold pieces_nodes. rewrite !fmap_cons. cbn [concat app keys fst snd].
  f_equal. apply IH.
Qed.

Lemma count_vars_pieces (ms : list (gostring * gostring)) (ns : list Node) :
  count_vars (pieces_nodes ms ++ ns) = length ms + count_vars ns.
Proof.
  induction ms as [|[text inner] ms IH]; [done|].
  unfold pieces_nodes. rewrite !fmap_cons. cbn [concat app count_vars length].
  cbn [Nat.add]. f_equal. apply IH.
Qed.

End tree_facts.

Section size_facts.

Import strings.

Lemma scan_size (s : gostring) (ns : list Node) :
  scan s ns →
  length ns = 2 * count_vars ns + 1
  ∧ literal_length ns + sum_list_with length (keys ns) + 4 * count_vars ns
    ≤ length s.
Proof.
  induction 1 as [s Ho|s a Ho Hc|s a e ns Ho Hc H [IH1 IH2]].
  - cbn. lia.
  - cbn. rewrite length_take. lia.
  - destruct (marker_offsets _ _ _ Ho Hc) as [He Hl].
    rewrite length_drop in IH2.
    pose proof (TrimSpace_length (take (e - 2) (drop (a + 2) s))) as Hk.
    rewrite length_take in Hk.
    cbn [length count_vars literal_length keys sum_list_with].
    rewrite length_take. lia.
Qed.

Lemma scan_texts (s : gostring) (ns : list Node) :
  scan s ns → Forall (λ Content, find Content open_token = None) (texts ns).
Proof.
  induction 1 as [s Ho|s a Ho Hc|s a e ns Ho Hc H IH]; cbn [texts].
  - by constructor.
  - constructor; [|done]. apply text_ok_no_open. by apply open_split.
  - constructor; [|done]. apply text_ok_no_open. by apply open_split.
Qed.

Lemma scan_keys (s : gostring) (ns : list Node) :
  scan s ns →
  Forall (λ Key, TrimSpace Key = Key ∧ find Key close_token = None) (keys ns).
Proof.
  induction 1 as [s Ho|s a Ho Hc|s a e ns Ho Hc H IH]; cbn [keys];
    [constructor..|].
  constructor; [|done]. split; [apply TrimSpace_idem|].
  destruct (marker_split _ _ _ Ho Hc) as (_ & _ & _ & [Hi _]).
  destruct (TrimSpace_infix (take (e - 2) (drop (a + 2) s))) as (l & r & E).
  rewrite E in Hi. by apply find_None_infix in Hi.
Qed.

End size_facts.

(** ** Running a tree *)

(** The loop of [Template.Interpreter] adds to what [s] holds already. *)
Lemma range_tree_acc (nodes : list Node) (ctx : ptr Context) (s : gostring) :
  range_tree nodes ctx s = (let* o := range_tree nodes ctx [] in Ok (s ++ o)).
Proof.
  revert s. induction nodes as [|node nodes IH]; intros s.
  - cbn. by rewrite app_nil_r.
  - cbn [range_tree]. destruct (Node_Interpreter node ctx) as [o| |]; [|done..].
    cbn [bind app]. rewrite (IH (s ++ o)), (IH o).
    destruct (range_tree nodes ctx []); [|done..]. cbn [bind].
    by rewrite app_assoc.
Qed.

Lemma range_tree_app (t1 t2 : list Node) (ctx : ptr Context) :
  range_tree (t1 ++ t2) ctx [] =
  (let* a := range_tree t1 ctx [] in
   let* b := range_tree t2 ctx [] in
   Ok (a ++ b)).
Proof.
  induction t1 as [|node t1 IH].
  - cbn. by destruct (range_tree t2 ctx []).
  - cbn [app range_tree]. destruct (Node_Interpreter node ctx) as [o| |]; [|done..].
    cbn [bind app]. rewrite (range_tree_acc (t1 ++ t2)), (range_tree_acc t1), IH.
    destruct (range_tree t1 ctx []); [|done..]. cbn [bind].
    destruct (range_tree t2 ctx []); [|done..]. cbn [bind].
    by rewrite app_assoc.
Qed.

(** With a nil context, the first [VarNode] panics. *)
Lemma range_tree_nil (nodes : list Node) :
  range_tree nodes None [] =
  match keys nodes with
  | [] => Ok (concat (texts nodes))
  | _ :: _ => Panic
  end.
Proof.
  induction nodes as [|[Content|Key] nodes IH]; [done| |done].
  cbn [range_tree Node_Interpreter TextNode_Interpreter bind app keys texts concat].
  rewrite range_tree_acc, IH. by destruct (keys nodes).
Qed.

(** Keys that the context does not hold add nothing. *)
Lemma output_missing (c : Context) (ns : list Node) :
  (∀ k, k ∈ keys ns → Data c !! k = None) →
  concat (node_output c <$> ns) = concat (texts ns).
Proof.
  induction ns as [|[Content|Key] ns IH]; intros Hk; [done|..].
  - rewrite fmap_cons. cbn [concat texts node_output]. by rewrite IH.
  - rewrite fmap_cons. cbn [concat texts node_output].
    rewrite (Hk Key) by (cbn [keys]; by left).
    apply IH. intros k Hin. apply Hk. cbn [keys]. by right.
Qed.

(** The output is a function of the formatted values of the keys. *)
Lemma output_agree (c1 c2 : Context) (ns : list Node) :
  (∀ k, k ∈ keys ns →
        fmt.Sprintf_v <$> Data c1 !! k = fmt.Sprintf_v <$> Data c2 !! k) →
  node_output c1 <$> ns = node_output c2 <$> ns.
Proof.
  induction ns as [|[Content|Key] ns IH]; intros Hk; [done|..].
  - rewrite !fmap_cons. by rewrite IH.
  - rewrite !fmap_cons. rewrite IH.
    + f_equal. cbn [node_output].
      specialize (Hk Key ltac:(cbn [keys]; by left)).
      destruct (Data c1 !! Key), (Data c2 !! Key); cbn in Hk; congruence.
    + intros k Hin. apply Hk. cbn [keys]. by right.
Qed.

(** ** What holds of every template *)

(** X1. The tree covers the template from its start, in order, with no gap
    and no overlap: every template is markers [ms], each with the text
    before it, then a tail with no open token, then what the scan drops,
    which is nothing or starts with an open token that has no close token
    after it; the tree has the two nodes of each marker and the [TextNode]
    of the tail. *)
Theorem tree_covers_template (tmpl : gostring) :
  ∃ (ms : list (gostring * gostring)) (tail dropped : gostring),
    tmpl = pieces_source ms ++ tail ++ dropped
    ∧ ParseTemplate tmpl
      = Ok (Some {| tree := pieces_nodes ms ++ [TextNode tail] |})
    ∧ pieces_ok ms
    ∧ strings.find tail open_token = None
    ∧ (dropped = []
       ∨ (text_ok tail ∧ strings.HasPrefix dropped open_token = true
          ∧ strings.find dropped close_token = None)).
Proof.
  destruct (ParseTemplate_total tmpl) as (ns & Hs & HP).
  destruct (scan_decompose _ _ Hs) as (ms & tail & dropped & Hms & E & -> & Ht & Hd).
  by exists ms, tail, dropped.
Qed.

(** X2. No [TextNode] of a parsed template holds an open token: all the
    open tokens of the template are used up by markers, or dropped. *)
Theorem texts_have_no_open_token (tmpl : gostring) :
  ∃ t : Template,
    ParseTemplate tmpl = Ok (Some t)
    ∧ Forall (λ Content, strings.find Content open_token = None)
        (texts (tree t)).
Proof.
  destruct (ParseTemplate_total tmpl) as (ns & Hs & HP).
  exists {| tree := ns |}. split; [done|]. by eapply scan_texts.
Qed.

(** X3. Every key of a parsed template is trimmed, so that [TrimSpace]
    leaves it as it is, and holds no close token: an entry of the context
    under a key with white space at an end, or with "}}" in it, is never
    looked up. *)
Theorem keys_are_trimmed (tmpl : gostring) :
  ∃ t : Template,
    ParseTemplate tmpl = Ok (Some t)
    ∧ Forall (λ Key, strings.TrimSpace Key = Key
                     ∧ strings.find Key close_token = None)
        (keys (tree t)).
Proof.
  destruct (ParseTemplate_total tmpl) as (ns & Hs & HP).
  exists {| tree := ns |}. split; [done|]. by eapply scan_keys.
Qed.

(** X4. The tree is no larger than the template: it has one node more than
    twice its [VarNode]s, and the bytes of its texts and keys, with four
    bytes of braces for each [VarNode], are at most the bytes of the
    template. *)
Theorem tree_size (tmpl : gostring) :
  ∃ t : Template,
    ParseTemplate tmpl = Ok (Some t)
    ∧ length (tree t) = 2 * count_vars (tree t) + 1
    ∧ literal_length (tree t) + sum_list_with length (keys (tree t))
      + 4 * count_vars (tree t) ≤ length tmpl.
Proof.
  destruct (ParseTemplate_total tmpl) as (ns & Hs & HP).
  exists {| tree := ns |}. split; [done|]. by eapply scan_size.
Qed.

(** ** How parsing and rendering compose *)

(** X5. Parsing restarts after every marker: after markers [ms], each
    closed by its own close token and with no open token in the text
    before it, the rest of the template is parsed as it is on its own. *)
Theorem ParseTemplate_compose
    (ms : list (gostring * gostring)) (post : gostring) :
  pieces_ok ms →
  ∃ rest,
    ParseTemplate post = Ok (Some {| tree := rest |})
    ∧ ParseTemplate (pieces_source ms ++ post)
      = Ok (Some {| tree := pieces_nodes ms ++ rest |}).
Proof.
  intros Hms. destruct (ParseTemplate_total post) as (rest & Hs & HP).
  exists rest. split; [done|]. by apply ParseTemplate_scan, scan_pieces.
Qed.

Lemma ParseTemplate_compose_witness :
  pieces_ok [(str "Hello, ", str " Name "); (str "", str "Age")]
  ∧ ∃ rest,
      ParseTemplate (str " y.") = Ok (Some {| tree := rest |})
      ∧ ParseTemplate
          (pieces_source [(str "Hello, ", str " Name "); (str "", str "Age")]
           ++ str " y.")
        = Ok (Some {| tree :=
                 pieces_nodes [(str "Hello, ", str " Name "); (str "", str "Age")]
                 ++ rest |}).
Proof.
  assert (pieces_ok [(str "Hello, ", str " Name "); (str "", str "Age")]) as H.
  { repeat constructor; discriminate. }
  split; [exact H|]. exact (ParseTemplate_compose _ (str " y.") H).
Defined.

(** X6. Rendering goes marker by marker: the output of a text with no open
    token, a marker and the rest is the text, then what the [VarNode] of
    the trimmed interior gives, then the output of the rest.  The value
    goes into the output as it is: it is not scanned for markers.  With a
    nil context both sides panic. *)
Theorem Render_marker (text inner post : gostring) (ctx : ptr Context) :
  text_ok text → inner_ok inner →
  Render (text ++ marker inner ++ post) ctx =
  (let* v := VarNode_Interpreter (strings.TrimSpace inner) ctx in
   let* out := Render post ctx in
   Ok (text ++ v ++ out)).
Proof.
  intros Ht Hi.
  destruct (ParseTemplate_pieces [] text inner post (List.Forall_nil _) Ht Hi)
    as (rest & HP & Hs).
  cbn [pieces_source pieces_nodes fmap list_fmap concat app] in Hs.
  unfold Render. rewrite Hs, HP. cbn [bind]. unfold Template_Interpreter.
  cbn [deref bind tree range_tree Node_Interpreter TextNode_Interpreter app].
  destruct (VarNode_Interpreter (strings.TrimSpace inner) ctx) as [v| |];
    [|done..].
  cbn [bind]. rewrite range_tree_acc.
  destruct (range_tree rest ctx []); [|done..]. cbn [bind].
  by rewrite app_assoc.
Qed.

Lemma Render_marker_witness :
  text_ok (str "Hi ") ∧ inner_ok (str " x ")
  ∧ Render (str "Hi " ++ marker (str " x ") ++ str "!")
      (Some {| Data := {[ str "x" := VString (str "{{y}}") ]} |})
    = Ok (str "Hi {{y}}!").
Proof.
  assert (text_ok (str "Hi ")) as Ht by (split; [reflexivity|discriminate]).
  assert (inner_ok (str " x ")) as Hi by (split; [reflexivity|discriminate]).
  split; [exact Ht|]. split; [exact Hi|].
  rewrite (Render_marker (str "Hi ") (str " x ") (str "!") _ Ht Hi).
  reflexivity.
Defined.

(** X7. [Template.Interpreter] on a tree put together from two is the two
    outputs put together, one after the other; it panics when either part
    does. *)
Theorem Interpreter_app (t1 t2 : list Node) (ctx : ptr Context) :
  Template_Interpreter (Some {| tree := t1 ++ t2 |}) ctx =
  (let* a := Template_Interpreter (Some {| tree := t1 |}) ctx in
   let* b := Template_Interpreter (Some {| tree := t2 |}) ctx in
   Ok (a ++ b)).
Proof. unfold Template_Interpreter. cbn [deref bind tree]. apply range_tree_app. Qed.

(** ** The context *)

(** X8. The output depends on the context only through the formatted
    values of the keys the template refers to: two contexts that print the
    same for each of these keys, and are missing the same ones, give the
    same output, whatever else they hold. *)
Theorem Render_agree (tmpl : gostring) (c1 c2 : Context) :
  (∀ k, k ∈ referenced_keys tmpl →
        fmt.Sprintf_v <$> Data c1 !! k = fmt.Sprintf_v <$> Data c2 !! k) →
  Render tmpl (Some c1) = Render tmpl (Some c2).
Proof.
  intros Hk. destruct (ParseTemplate_total tmpl) as (ns & Hs & HP).
  unfold referenced_keys in Hk. rewrite HP in Hk. cbn [tree] in Hk.
  unfold Render. rewrite HP. cbn [bind]. rewrite !Template_Interpreter_eq.
  cbn [tree]. by rewrite (output_agree c1 c2 ns Hk).
Qed.

Lemma Render_agree_witness :
  let c2 := {| Data := <[str "Name" := VOther (str "fengfeng")]>
                         (<[str "Age" := VString (str "21")]>
                            (<[str "City" := VString (str "Taipei")]> ∅)) |} in
  (∀ k, k ∈ referenced_keys main_tmpl →
        fmt.Sprintf_v <$> Data main_ctx !! k = fmt.Sprintf_v <$> Data c2 !! k)
  ∧ Render main_tmpl (Some main_ctx) = Render main_tmpl (Some c2).
Proof.
  intros c2.
  assert (∀ k, k ∈ referenced_keys main_tmpl →
               fmt.Sprintf_v <$> Data main_ctx !! k
               = fmt.Sprintf_v <$> Data c2 !! k) as H.
  { intros k Hin. vm_compute in Hin.
    apply elem_of_cons in Hin as [->|Hin]; [reflexivity|].
    apply elem_of_cons in Hin as [->|Hin]; [reflexivity|].
    by apply elem_of_nil in Hin. }
  split; [exact H|]. exact (Render_agree main_tmpl main_ctx c2 H).
Defined.

(** X9. When rendering panics.  With a context that is not nil it never
    does.  With a nil context it does exactly when the template has a
    marker, that is when its first open token has a close token after it:
    [VarNode.Interpreter] is the one place where the context is used.
    Otherwise the tree is one [TextNode], and the output is its text, which
    the template starts with, for every context. *)
Theorem Render_panics (tmpl : gostring) :
  (∀ c : Context, ∃ out, Render tmpl (Some c) = Ok out)
  ∧ (Render tmpl None = Panic
     ↔ ∃ a, strings.find tmpl open_token = Some a
            ∧ is_Some (strings.find (drop a tmpl) close_token))
  ∧ (Render tmpl None ≠ Panic →
     ∃ out, out `prefix_of` tmpl ∧ ∀ ctx : ptr Context, Render tmpl ctx = Ok out).
Proof.
  destruct (ParseTemplate_total tmpl) as (ns & Hs & HP).
  assert (∀ ctx, Render tmpl ctx = range_tree ns ctx []) as HR.
  { intros ctx. unfold Render. by rewrite HP. }
  split; [|split].
  - intros c. rewrite HR, range_tree_eq. by eexists.
  - rewrite HR, range_tree_nil.
    inversion Hs as [s Ho|s a Ho Hc|s a e ns' Ho Hc H]; subst; cbn [keys].
    + split; [done|]. intros (a & Ha & _). congruence.
    + split; [done|]. intros (a' & Ha & [e He]). congruence.
    + split; [|done]. intros _. exists a. by rewrite Hc.
  - rewrite HR, range_tree_nil.
    inversion Hs as [s Ho|s a Ho Hc|s a e ns' Ho Hc H]; subst; cbn [keys];
      [| |done]; intros _.
    + exists tmpl. split; [done|]. intros ctx. by rewrite HR.
    + exists (take a tmpl). split; [apply prefix_take|].
      intros ctx. by rewrite HR.
Qed.

(** X10. A template rendered with a context that holds none of its keys
    is its texts put together: the output has no open token and is no
    longer than the template, so that rendering the output again, with any
    context, gives it back. *)
Theorem Render_missing_keys (tmpl : gostring) (c : Context) :
  (∀ k, k ∈ referenced_keys tmpl → Data c !! k = None) →
  ∃ (t : Template) (out : gostring),
    ParseTemplate tmpl = Ok (Some t)
    ∧ Render tmpl (Some c) = Ok out
    ∧ out = concat (texts (tree t))
    ∧ strings.find out open_token = None
    ∧ length out ≤ length tmpl
    ∧ ∀ ctx : ptr Context, Render out ctx = Ok out.
Proof.
  intros Hk. destruct (ParseTemplate_total tmpl) as (ns & Hs & HP).
  unfold referenced_keys in Hk. rewrite HP in Hk. cbn [tree] in Hk.
  exists {| tree := ns |}, (concat (texts ns)). cbn [tree].
  assert (strings.find (concat (texts ns)) open_token = None) as Hno.
  { destruct (scan_decompose _ _ Hs) as (ms & tail & dropped & Hms & _ & -> & Ht & _).
    rewrite texts_pieces. cbn [texts]. rewrite concat_app. cbn [concat].
    rewrite app_nil_r. clear -Hms Ht.
    induction Hms as [|[text inner] ms [Hto _] _ IH]; [done|].
    rewrite fmap_cons. cbn [concat fst]. rewrite <- app_assoc.
    by apply text_ok_app. }
  split; [done|]. split; [|split; [done|split; [done|split]]].
  - unfold Render. rewrite HP. cbn [bind]. rewrite Template_Interpreter_eq.
    cbn [tree]. by rewrite (output_missing c ns Hk).
  - destruct (scan_size _ _ Hs) as [_ Hsize].
    assert (length (concat (texts ns)) = literal_length ns) as ->; [|lia].
    clear. induction ns as [|[Content|Key] ns IH]; [done| |done].
    cbn [texts concat literal_length]. rewrite length_app. by rewrite IH.
  - intros ctx. unfold Render.
    rewrite (ParseTemplate_scan _ [TextNode (concat (texts ns))])
      by (by apply scan_tail).
    cbn. done.
Qed.

Lemma Render_missing_keys_witness :
  (∀ k, k ∈ referenced_keys (str "a{{x}}{b{{ y }}c{{z") →
        Data {| Data := ∅ |} !! k = None)
  ∧ ∃ (t : Template) (out : gostring),
      ParseTemplate (str "a{{x}}{b{{ y }}c{{z") = Ok (Some t)
      ∧ Render (str "a{{x}}{b{{ y }}c{{z") (Some {| Data := ∅ |}) = Ok out
      ∧ out = concat (texts (tree t))
      ∧ strings.find out open_token = None
      ∧ length out ≤ length (str "a{{x}}{b{{ y }}c{{z")
      ∧ ∀ ctx : ptr Context, Render out ctx = Ok out.
Proof.
  assert (∀ k, k ∈ referenced_keys (str "a{{x}}{b{{ y }}c{{z") →
               Data {| Data := ∅ |} !! k = None) as H
    by (intros k _; reflexivity).
  split; [exact H|].
  exact (Render_missing_keys (str "a{{x}}{b{{ y }}c{{z") {| Data := ∅ |} H).
Defined.

Lemma output_quoted (c : Context) (ms : list (gostring * gostring)) :
  Forall (λ m, fmt.Sprintf_v <$> Data c !! strings.TrimSpace m.2
               = Some (marker m.2)) ms →
  concat (node_output c <$> pieces_nodes ms) = pieces_source ms.
Proof.
  induction 1 as [|[text inner] ms Hm _ IH]; [done|].
  change (pieces_nodes ((text, inner) :: ms))
    with ([TextNode text; VarNode (strings.TrimSpace inner)] ++ pieces_nodes ms).
  change (pieces_source ((text, inner) :: ms))
    with ((text ++ marker inner) ++ pieces_source ms).
  rewrite fmap_app, concat_app, IH. f_equal.
  cbn [fmap list_fmap concat node_output]. cbn [snd] in Hm.
  destruct (Data c !! strings.TrimSpace inner) as [val|]; [|done].
  injection Hm as ->. by rewrite app_nil_r.
Qed.

(** X11. A round trip.  A template that is markers [ms] and a tail with no
    open token, rendered with a context in which the key of each marker
    prints as the marker itself, is given back as it is. *)
Theorem Render_quoted
    (ms : list (gostring * gostring)) (tail : gostring) (c : Context) :
  pieces_ok ms → strings.find tail open_token = None →
  Forall (λ m, fmt.Sprintf_v <$> Data c !! strings.TrimSpace m.2
               = Some (marker m.2)) ms →
  Render (pieces_source ms ++ tail) (Some c) = Ok (pieces_source ms ++ tail).
Proof.
  intros Hms Ht Hq.
  assert (ParseTemplate (pieces_source ms ++ tail)
          = Ok (Some {| tree := pieces_nodes ms ++ [TextNode tail] |})) as HP.
  { apply ParseTemplate_scan, scan_pieces; [done|]. by apply scan_tail. }
  unfold Render. rewrite HP. cbn [bind]. rewrite Template_Interpreter_eq.
  cbn [tree]. rewrite fmap_app, concat_app, (output_quoted c ms Hq).
  cbn [fmap list_fmap concat node_output]. by rewrite app_nil_r.
Qed.

Lemma Render_quoted_witness :
  let c := {| Data := {[ str "x" := VString (str "{{ x }}") ]} |} in
  pieces_ok [(str "Hi ", str " x ")]
  ∧ strings.find (str "!") open_token = None
  ∧ Render (pieces_source [(str "Hi ", str " x ")] ++ str "!") (Some c)
    = Ok (pieces_source [(str "Hi ", str " x ")] ++ str "!").
Proof.
  intros c.
  assert (pieces_ok [(str "Hi ", str " x ")]) as Hms
    by (repeat constructor; discriminate).
  assert (strings.find (str "!") open_token = None) as Ht by reflexivity.
  split; [exact Hms|]. split; [exact Ht|].
  apply (Render_quoted [(str "Hi ", str " x ")] (str "!") c Hms Ht).
  repeat constructor.
Defined.

(** ** The iterations of the loop *)

(** X12. The loop of [ParseTemplate] runs once for each [VarNode] of the
    tree and once more: with that many iterations or more it returns the
    template, with fewer it has not ended. *)
Theorem loop_iterations (tmpl : gostring) :
  ∃ t : Template,
    ParseTemplate tmpl = Ok (Some t)
    ∧ ∀ fuel,
        ParseTemplate_fuel fuel tmpl =
        if decide (fuel < count_vars (tree t) + 1) then OutOfFuel
        else Ok (Some t).
Proof.
  destruct (ParseTemplate_total tmpl) as (ns & Hs & HP).
  exists {| tree := ns |}. split; [done|]. intros fuel. cbn [tree].
  rewrite (ParseTemplate_fuel_scan _ ns) by done.
  repeat case_decide; done || lia.
Qed.
